(** * Operadic consistency: the structural core (trees of questions, collapse
      plans, open sub-trees, quotient trees) and the agreement metrics.

    Shallow embedding of [operadic_consistency/core/transforms.py] and of the
    part of [operadic_consistency/core/metrics.py] that computes the agreement
    rate, with the properties of the specification proved about it. *)

From stdpp Require Import gmap strings list sorting.
From Stdlib Require Import ZArith QArith Lia.

Set Warnings "-clear-no-such-hyp".

Local Open Scope Z_scope.
Local Open Scope nat_scope.

(** ** Data model *)

(** [NodeId] is a Python [int]. *)
Abbreviation NodeId := Z (only parsing).

(** Exceptions.  The Python code raises [ValueError] with distinct messages;
    the constructors name the message families the way the specification
    does.  [KeyError] is a failed subscript [d[k]], [AssertionError] a failed
    [assert], [ValueError] what [max] raises on an empty sequence,
    [ZeroDivisionError] and [OverflowError] what [/] raises on integers, and
    [Diverges] stands for a [while] loop that never exits. *)
Inductive TreeError := MissingRoot | DanglingParent | MultipleRoots | Cycle.

Inductive Error :=
| TreeErr (e : TreeError)
| InvalidCut
| MissingCollapsedQuestion
| KeyError
| AssertionError
| ValueError
| ZeroDivisionError
| OverflowError
| Diverges.

Inductive Result (A : Type) :=
| Ok (a : A)
| Err (e : Error).
Arguments Ok {A} a.
Arguments Err {A} e.

Definition bind {A B} (m : Result A) (f : A → Result B) : Result B :=
  match m with
  | Ok a => f a
  | Err e => Err e
  end.

Notation "'do' x <- m ; f" := (bind m (fun x => f))
  (at level 10, x name, m at level 100, f at level 200).
Notation "'run' m ; f" := (bind m (fun _ => f))
  (at level 10, m at level 100, f at level 200).

Definition is_ok {A} (m : Result A) : Prop := ∃ a, m = Ok a.

(** A Python [dict] keyed by node ids: an association list in insertion
    order.  A real [dict] never holds a key twice ([dict_wf]). *)
Definition keys {V} (d : list (Z * V)) : list Z := d.*1.

Definition dict_wf {V} (d : list (Z * V)) : Prop := NoDup (keys d).

Fixpoint dict_get {V} (d : list (Z * V)) (k : Z) : option V :=
  match d with
  | [] => None
  | (k', v) :: d' => if decide (k = k') then Some v else dict_get d' k
  end.

(** [d[k]] *)
Definition subscript {V} (d : list (Z * V)) (k : Z) : Result V :=
  match dict_get d k with
  | Some v => Ok v
  | None => Err KeyError
  end.

(** [d[k] = v]: an existing key keeps its position, a new one goes last. *)
Fixpoint dict_set {V} (d : list (Z * V)) (k : Z) (v : V) : list (Z * V) :=
  match d with
  | [] => [(k, v)]
  | (k', v') :: d' =>
      if decide (k = k') then (k, v) :: d' else (k', v') :: dict_set d' k v
  end.

(** [sorted(xs)] on integers. *)
Definition sorted (l : list Z) : list Z := merge_sort Z.le l.

(** Modelled from the spec: the classes [ToQNode], [ToQ] and [OpenToQ] of
    [core/toq_types.py], with the fields of the data model.  [nodes] is a
    Python [dict]; [OpenToQ] names its fields [toq] and [root_id]. *)
Record ToQNode := mkToQNode {
  id : NodeId;
  text : string;
  parent : option NodeId;
}.

Record ToQ := mkToQ {
  nodes : list (Z * ToQNode);
  root_id : NodeId;
}.

Record OpenToQ := mkOpenToQ {
  open_toq : ToQ;
  inputs : list Z;
  open_root_id : NodeId;
}.

(** The dataclasses of [core/transforms.py].  [CollapsedToQ] names its fields
    [toq], [plan] and [component_roots]. *)
Record CollapsePlan := mkCollapsePlan {
  cut_edges : list Z;
}.

Record CollapsedToQ := mkCollapsedToQ {
  collapsed_toq : ToQ;
  collapsed_plan : CollapsePlan;
  removed_nodes : gset Z;
  collapsed_question_by_root : gmap Z string;
  collapsed_component_roots : list Z;
  open_toq_by_root : option (gmap Z OpenToQ);
}.

(** ** The tree type's operations ([core/toq_types.py]) *)

Definition parent_of (t : ToQ) (k : Z) : option Z :=
  dict_get (nodes t) k ≫= parent.

(** Following parent pointers from [cur] reaches the root in at most [fuel]
    steps. *)
Fixpoint reaches_root (t : ToQ) (fuel : nat) (cur : Z) : bool :=
  if decide (cur = root_id t) then true
  else match fuel with
       | O => false
       | S f => match parent_of t cur with
                | Some p => reaches_root t f p
                | None => false
                end
       end.

Definition dangling (t : ToQ) (kn : Z * ToQNode) : bool :=
  bool_decide (kn.1 ≠ root_id t) &&
  match parent kn.2 with
  | Some p => bool_decide (p ∉ keys (nodes t))
  | None => false
  end.

Definition second_root (t : ToQ) (kn : Z * ToQNode) : bool :=
  bool_decide (kn.1 ≠ root_id t) &&
  match parent kn.2 with
  | Some _ => false
  | None => true
  end.

(** Modelled from the spec: [ToQ.validate] of [core/toq_types.py], which is
    not part of the sources at hand.  It checks the five invariants of the
    data model in order and fails fast: the root is a key; the root has no
    parent; every other node's parent is a key; no other node lacks a parent;
    every node reaches the root along parent pointers.  A walk that has not
    met the root after as many steps as there are nodes never will, which is
    the bound the fifth check uses.  The specification names no error kind
    for a root that has a parent; [MissingRoot] is used for it. *)
Definition validate (t : ToQ) : Result unit :=
  match dict_get (nodes t) (root_id t) with
  | None => Err (TreeErr MissingRoot)
  | Some rn =>
      match parent rn with
      | Some _ => Err (TreeErr MissingRoot)
      | None =>
          if existsb (dangling t) (nodes t) then Err (TreeErr DanglingParent)
          else if existsb (second_root t) (nodes t) then Err (TreeErr MultipleRoots)
          else if forallb (reaches_root t (length (nodes t))) (keys (nodes t))
               then Ok tt
               else Err (TreeErr Cycle)
      end
  end.

(** Modelled from the spec: [ToQ.children] of [core/toq_types.py] followed by
    [.get(u, [])]: the direct children of [u], ordered by id; a leaf has
    none. *)
Definition children_get (t : ToQ) (u : Z) : list Z :=
  sorted (keys (filter (λ kn, parent kn.2 = Some u) (nodes t))).

(** A valid tree of questions: a genuine mapping that passes [validate]. *)
Definition valid_toq (t : ToQ) : Prop :=
  dict_wf (nodes t) ∧ validate t = Ok tt.

(** ** [core/transforms.py] *)

(** [component_roots] *)
Definition component_roots (toq : ToQ) (plan : CollapsePlan) : list Z :=
  let roots : gset Z := list_to_set (cut_edges plan) ∪ {[ root_id toq ]} in
  sorted (elements roots).

(** The [while True] loop of [_component_root], one iteration per unit of
    fuel. *)
Fixpoint _component_root_loop (toq : ToQ) (cut : gset Z) (fuel : nat) (cur : Z)
  : Result Z :=
  match fuel with
  | O => Err Diverges
  | S f =>
      do n <- subscript (nodes toq) cur;
      match parent n with
      | None => Ok cur
      | Some p =>
          if decide (cur ∈ cut) then Ok cur
          else _component_root_loop toq cut f p
      end
  end.

(** [_component_root].  The walk is deterministic, so one that is still
    running after more iterations than there are nodes has come back to a
    node it has already left and runs forever. *)
Definition _component_root (toq : ToQ) (nid : Z) (cut : gset Z) : Result Z :=
  _component_root_loop toq cut (S (length (nodes toq))) nid.

(** [itertools.combinations(l, r)]: the [r]-element sub-sequences of [l],
    emitted in lexicographic order of the positions they take in [l]. *)
Fixpoint combinations {A} (l : list A) (r : nat) {struct l} : list (list A) :=
  match r with
  | O => [[]]
  | S r' =>
      match l with
      | [] => []
      | x :: l' => (cons x <$> combinations l' r') ++ combinations l' r
      end
  end.

(** [enumerate_collapse_plans]: the two nested [for] loops append to
    [plans]. *)
Definition enumerate_collapse_plans (toq : ToQ) (include_empty : bool)
  : Result (list CollapsePlan) :=
  run validate toq;
  let edges := filter (λ nid, nid ≠ root_id toq) (keys (nodes toq)) in
  let n := length edges in
  Ok (foldl (λ plans r,
               if (r =? 0) && negb include_empty then plans
               else foldl (λ plans subset,
                             plans ++ [mkCollapsePlan (sorted subset)])
                          plans (combinations edges r))
            [] (seq 0 (n + 1))).

(** A [for] loop whose body may raise, threading the loop's state. *)
Fixpoint foldM {A B} (f : A → B → Result A) (a : A) (l : list B) : Result A :=
  match l with
  | [] => Ok a
  | x :: l' => do a' <- f a x; foldM f a' l'
  end.

(** The state of the traversal in [extract_open_toq].  [stack] has the top of
    the Python list (its last element) first. *)
Record dfs_state := mkDfs {
  stack : list Z;
  internal : gset Z;
  frontier : gset Z;
}.

(** The body of [for v in ch.get(u, [])]. *)
Definition visit_child (cut : gset Z) (st : dfs_state) (v : Z) : dfs_state :=
  if decide (v ∈ cut)
  then mkDfs (stack st) (internal st) (frontier st ∪ {[ v ]})
  else mkDfs (v :: stack st) (internal st) (frontier st).

(** [while stack: ...], one iteration per unit of fuel. *)
Fixpoint dfs_loop (toq : ToQ) (cut : gset Z) (fuel : nat) (st : dfs_state)
  : Result dfs_state :=
  match stack st with
  | [] => Ok st
  | u :: rest =>
      match fuel with
      | O => Err Diverges
      | S f =>
          if decide (u ∈ internal st)
          then dfs_loop toq cut f (mkDfs rest (internal st) (frontier st))
          else dfs_loop toq cut f
                 (foldl (visit_child cut)
                        (mkDfs rest (internal st ∪ {[ u ]}) (frontier st))
                        (children_get toq u))
      end
  end.

(** Every iteration either drops an entry of the stack or marks a new node
    and pushes some of its children, so the loop of a valid tree is over
    within this many iterations. *)
Definition dfs_fuel (toq : ToQ) : nat :=
  S (S (length (nodes toq)) * S (length (nodes toq))).

(** The body of [for nid in internal] that builds the induced nodes. *)
Definition induced_node (toq : ToQ) (internal : gset Z)
    (new_nodes : list (Z * ToQNode)) (nid : Z) : Result (list (Z * ToQNode)) :=
  do node <- subscript (nodes toq) nid;
  let new_parent :=
    match parent node with
    | Some p => if decide (p ∈ internal) then Some p else None
    | None => None
    end in
  Ok (dict_set new_nodes nid (mkToQNode nid (text node) new_parent)).

(** [extract_open_toq].  A Python set is iterated in an order the language
    leaves open; [elements] plays that part. *)
Definition extract_open_toq (toq : ToQ) (plan : CollapsePlan) (root : Z)
  : Result OpenToQ :=
  run validate toq;
  let cut : gset Z := list_to_set (cut_edges plan) in
  do st <- dfs_loop toq cut (dfs_fuel toq) (mkDfs [root] ∅ ∅);
  do new_nodes <- foldM (induced_node toq (internal st)) [] (elements (internal st));
  let open := mkToQ new_nodes root in
  run validate open;
  Ok (mkOpenToQ open (sorted (elements (frontier st))) root).

(** The body of the loop that re-validates the cut edges. *)
Definition check_cut (toq : ToQ) (_ : unit) (c : Z) : Result unit :=
  match dict_get (nodes toq) c with
  | None => Err InvalidCut
  | Some n =>
      match parent n with
      | None => Err InvalidCut
      | Some _ => Ok tt
      end
  end.

(** The body of the loop that requires a collapsed question per root. *)
Definition check_question (cq : gmap Z string) (_ : unit) (r : Z) : Result unit :=
  match cq !! r with
  | None => Err MissingCollapsedQuestion
  | Some _ => Ok tt
  end.

(** The body of the loop that builds the quotient nodes. *)
Definition quotient_node (toq : ToQ) (cut : gset Z) (cq : gmap Z string)
    (new_nodes : list (Z * ToQNode)) (r : Z) : Result (list (Z * ToQNode)) :=
  do new_parent <-
    (if decide (r = root_id toq) then Ok None
     else
       do n <- subscript (nodes toq) r;
       match parent n with
       | None => Err AssertionError
       | Some p => do c <- _component_root toq p cut; Ok (Some c)
       end);
  do txt <- match cq !! r with
            | Some s => Ok s
            | None => Err KeyError
            end;
  Ok (dict_set new_nodes r (mkToQNode r txt new_parent)).

(** [apply_collapse_plan] *)
Definition apply_collapse_plan (toq : ToQ) (plan : CollapsePlan)
    (cq : gmap Z string) : Result CollapsedToQ :=
  run validate toq;
  let cut : gset Z := list_to_set (cut_edges plan) in
  if decide (root_id toq ∈ cut) then Err InvalidCut
  else
    run foldM (check_cut toq) tt (elements cut);
    let roots := component_roots toq plan in
    run foldM (check_question cq) tt roots;
    do new_nodes <- foldM (quotient_node toq cut cq) [] roots;
    let removed : gset Z :=
      list_to_set (keys (nodes toq)) ∖ list_to_set roots in
    let new_toq := mkToQ new_nodes (root_id toq) in
    run validate new_toq;
    Ok (mkCollapsedToQ new_toq plan removed cq roots None).

(** ** [core/metrics.py] *)

(** The fields of a report that the metrics read; [core/consistency.py] and
    [core/interfaces.py] declare the classes.  [answer_text] is the field
    [text] of an answer. *)
Record Answer := mkAnswer {
  answer_text : string;
}.

Record RunResult := mkRunResult {
  run_plan : CollapsePlan;
  root_answer : Answer;
  normalized_root : option string;
}.

Record ConsistencyReport := mkConsistencyReport {
  runs : list RunResult;
}.

Definition _answer_key (text : string) : string := text.

(** [collections.Counter]: counts in order of first occurrence. *)
Fixpoint counter_add (d : list (string * nat)) (k : string) : list (string * nat) :=
  match d with
  | [] => [(k, 1)]
  | (k', c) :: d' =>
      if decide (k = k') then (k', S c) :: d' else (k', c) :: counter_add d' k
  end.

Definition Counter (ks : list string) : list (string * nat) :=
  foldl counter_add [] ks.

(** [answer_distribution] *)
Definition answer_distribution (report : ConsistencyReport)
    (use_normalized : bool) : list (string * nat) :=
  let keys :=
    foldl (λ keys r,
             match normalized_root r with
             | Some s => if use_normalized then keys ++ [s]
                         else keys ++ [_answer_key (answer_text (root_answer r))]
             | None => keys ++ [_answer_key (answer_text (root_answer r))]
             end)
          [] (runs report) in
  Counter keys.

(** [max(xs)], which raises on an empty sequence. *)
Definition py_max (xs : list nat) : Result nat :=
  match xs with
  | [] => Err ValueError
  | x :: xs' => Ok (foldl Nat.max x xs')
  end.

(** Floats.  A Python [float] is an IEEE 754 double; the model represents a
    finite double by the rational number it denotes, in lowest terms, so that
    equal doubles are equal rationals ([0.0] is the rational [0]).

    [round_half_even num den], for [0 < den], is the integer nearest to
    [num / den], the even one of the two when [num / den] lies half way. *)
Definition round_half_even (num den : Z) : Z :=
  let q := (num / den)%Z in
  let r := (num mod den)%Z in
  if decide (2 * r < den)%Z then q
  else if decide (den < 2 * r)%Z then (q + 1)%Z
  else if Z.even q then q else (q + 1)%Z.

(** [ratio_exponent m n], for positive [m] and [n], is the integer [e] with
    [2 ^ e ≤ m / n < 2 ^ (e + 1)]. *)
Definition ratio_exponent (m n : Z) : Z :=
  let d := (Z.log2 m - Z.log2 n)%Z in
  if decide (0 ≤ d)%Z
  then (if decide (n * 2 ^ d ≤ m)%Z then d else d - 1)%Z
  else (if decide (n ≤ m * 2 ^ (- d))%Z then d else d - 1)%Z.

(** The double nearest to [m / n] for positive integers: a double in the
    binade of [2 ^ e] is a multiple of [2 ^ (e - 52)], a subnormal one (below
    [2 ^ (-1022)]) a multiple of [2 ^ (-1074)]; the quotient is rounded to
    the nearest such multiple, ties to the even one, and a result of
    [2 ^ 1024] or more does not fit a double. *)
Definition truediv_pos (m n : Z) : Result Q :=
  let e := ratio_exponent m n in
  let s := (52 - Z.max e (-1022))%Z in
  if decide (0 ≤ s)%Z
  then Ok (Qred (round_half_even (m * 2 ^ s) n # Z.to_pos (2 ^ s)))
  else
    let v := (round_half_even m (n * 2 ^ (- s)) * 2 ^ (- s))%Z in
    if decide (2 ^ 1024 ≤ v)%Z then Err OverflowError else Ok (v # 1)%Q.

(** [m / n] on Python integers: the correctly rounded quotient. *)
Definition py_truediv (m n : Z) : Result Q :=
  if decide (n = 0%Z) then Err ZeroDivisionError
  else if decide (m = 0%Z) then Ok 0%Q
  else
    do q <- truediv_pos (Z.abs m) (Z.abs n);
    Ok (if decide (0 < m * n)%Z then q else Qopp q).

(** [agreement_rate] *)
Definition agreement_rate (report : ConsistencyReport) (use_normalized : bool)
  : Result Q :=
  let dist := answer_distribution report use_normalized in
  let n := sum_list (dist.*2) in
  if decide (n = 0) then Ok 0%Q
  else
    do m <- py_max (dist.*2);
    py_truediv (Z.of_nat m) (Z.of_nat n).

(** ** Notions used in the statements *)

(** [rooted t k d]: [k] is [d] parent steps below the root. *)
Inductive rooted (t : ToQ) : Z → nat → Prop :=
| rooted_root : rooted t (root_id t) 0
| rooted_step k p d :
    k ≠ root_id t → parent_of t k = Some p → rooted t p d → rooted t k (S d).

(** [stops_at t cut nid r]: the upward walk from [nid] leaves every node that
    has a parent and is not in [cut], and [r] is the first node it does not
    leave. *)
Inductive stops_at (t : ToQ) (cut : gset Z) : Z → Z → Prop :=
| stop_here cur n :
    dict_get (nodes t) cur = Some n →
    parent n = None ∨ cur ∈ cut →
    stops_at t cut cur cur
| stop_above cur n p r :
    dict_get (nodes t) cur = Some n →
    parent n = Some p → cur ∉ cut →
    stops_at t cut p r →
    stops_at t cut cur r.

(** Lexicographic order on position tuples. *)
Inductive lex_lt : list nat → list nat → Prop :=
| lex_lt_head i j s1 s2 : i < j → lex_lt (i :: s1) (j :: s2)
| lex_lt_tail i s1 s2 : lex_lt s1 s2 → lex_lt (i :: s1) (i :: s2).

(** All combinations of fewer than [m] entries, by increasing size. *)
Definition combinations_below {A} (l : list A) (m : nat) : list (list A) :=
  concat (combinations l <$> seq 0 m).

(** The node ids other than the root, in the order of the mapping. *)
Definition non_root_ids (toq : ToQ) : list Z :=
  filter (λ nid, nid ≠ root_id toq) (keys (nodes toq)).

(** The plans of one size, in the order of the generator. *)
Definition plans_of_size (edges : list Z) (r : nat) : list CollapsePlan :=
  (λ subset, mkCollapsePlan (sorted subset)) <$> combinations edges r.

(** The answer key of one run. *)
Definition answer_key_of (use_normalized : bool) (r : RunResult) : string :=
  match normalized_root r with
  | Some s => if use_normalized then s else _answer_key (answer_text (root_answer r))
  | None => _answer_key (answer_text (root_answer r))
  end.

(** The number of occurrences of an answer among the keys. *)
Definition occurrences (a : string) (ks : list string) : nat :=
  length (filter (λ k, k = a) ks).

(** The count a [Counter] holds for a key ([0] for an absent one). *)
Fixpoint counter_get (d : list (string * nat)) (k : string) : nat :=
  match d with
  | [] => 0
  | (k', c) :: d' => if decide (k = k') then c else counter_get d' k
  end.

(** A cut edge the re-validation rejects: the root, a node the tree does not
    have, or a node without a parent. *)
Definition invalid_cut (toq : ToQ) (c : Z) : Prop :=
  c = root_id toq ∨ c ∉ keys (nodes toq) ∨
  ∃ n, dict_get (nodes toq) c = Some n ∧ parent n = None.

(** The number of parent steps from [k] to the root. *)
Fixpoint depth_loop (t : ToQ) (fuel : nat) (k : Z) : nat :=
  if decide (k = root_id t) then 0
  else match fuel with
       | O => 0
       | S f => match parent_of t k with
                | Some p => S (depth_loop t f p)
                | None => 0
                end
       end.

Definition depth (t : ToQ) (k : Z) : nat := depth_loop t (length (nodes t)) k.

(** The node the quotient holds for the component root [r]. *)
Definition quotient_value (toq : ToQ) (cut : gset Z) (cq : gmap Z string)
    (r : Z) : Result ToQNode :=
  do new_parent <-
    (if decide (r = root_id toq) then Ok None
     else
       do n <- subscript (nodes toq) r;
       match parent n with
       | None => Err AssertionError
       | Some p => do c <- _component_root toq p cut; Ok (Some c)
       end);
  do txt <- match cq !! r with
            | Some s => Ok s
            | None => Err KeyError
            end;
  Ok (mkToQNode r txt new_parent).

(** [reach t cut root x]: [x] is reached from [root] by going down to
    children without ever entering a node of [cut]. *)
Inductive reach (t : ToQ) (cut : gset Z) (root : Z) : Z → Prop :=
| reach_root : reach t cut root root
| reach_child p v :
    reach t cut root p → parent_of t v = Some p → v ∉ cut →
    reach t cut root v.

(** What the traversal maintains. *)
Record dfs_inv (t : ToQ) (cut : gset Z) (root : Z) (st : dfs_state) : Prop := {
  inv_stack : ∀ x, x ∈ stack st → reach t cut root x ∧ x ∈ keys (nodes t);
  inv_internal : ∀ x, x ∈ internal st → reach t cut root x ∧ x ∈ keys (nodes t);
  inv_children : ∀ u v, u ∈ internal st → parent_of t v = Some u →
      if decide (v ∈ cut) then v ∈ frontier st
      else v ∈ internal st ∨ v ∈ stack st;
  inv_frontier : ∀ v, v ∈ frontier st →
      v ∈ cut ∧ ∃ u, u ∈ internal st ∧ parent_of t v = Some u;
  inv_root : root ∈ internal st ∨ root ∈ stack st;
}.

(** The number of nodes the traversal has not marked yet. *)
Definition unvisited (t : ToQ) (seen : gset Z) : nat :=
  length (filter (λ k, k ∉ seen) (keys (nodes t))).

(** What decreases with every iteration of the traversal. *)
Definition dfs_potential (t : ToQ) (st : dfs_state) : nat :=
  length (stack st) + S (length (nodes t)) * unvisited t (internal st).

(** The node the induced tree holds for the internal node [nid]. *)
Definition induced_value (toq : ToQ) (internal : gset Z) (nid : Z)
  : Result ToQNode :=
  do node <- subscript (nodes toq) nid;
  Ok (mkToQNode nid (text node)
        match parent node with
        | Some p => if decide (p ∈ internal) then Some p else None
        | None => None
        end).

(** ** The trees of the scenarios *)

Definition question (i : Z) (p : option Z) : ToQNode :=
  mkToQNode i "q" p.

(** The chain [0 -> 1 -> 2] with root [0]. *)
Definition chain : ToQ :=
  mkToQ [(0, question 0 None); (1, question 1 (Some 0)); (2, question 2 (Some 1))]%Z
        0%Z.

(** The same chain, built by inserting node [2] before node [1]. *)
Definition chain_unordered : ToQ :=
  mkToQ [(0, question 0 None); (2, question 2 (Some 1)); (1, question 1 (Some 0))]%Z
        0%Z.

Definition two_questions : gmap Z string :=
  <[0%Z := "Q1"%string]> (<[1%Z := "Q2"%string]> ∅).

Definition run_with (a : string) : RunResult :=
  mkRunResult (mkCollapsePlan []) (mkAnswer a) None.

Definition three_runs : ConsistencyReport :=
  mkConsistencyReport [run_with "yes"; run_with "no"; run_with "yes"].

(** ** More of [core/metrics.py] *)

(** [max(xs, key=f)] from a first candidate on: an element replaces the
    candidate only when its key is strictly larger, so of several elements
    with the largest key the first one is returned. *)
Fixpoint py_max_key_from {A} (f : A → nat) (best : A) (xs : list A) : A :=
  match xs with
  | [] => best
  | x :: xs' => py_max_key_from f (if decide (f best < f x) then x else best) xs'
  end.

(** [max(xs, key=f)], which raises on an empty sequence. *)
Definition py_max_key {A} (f : A → nat) (xs : list A) : Result A :=
  match xs with
  | [] => Err ValueError
  | x :: xs' => Ok (py_max_key_from f x xs')
  end.

(** [mode_answer].  [max] runs over the keys of [dist], for which [dist[x]]
    is [counter_get dist x]. *)
Definition mode_answer (report : ConsistencyReport) (use_normalized : bool)
  : Result (option (string * nat)) :=
  let dist := answer_distribution report use_normalized in
  match dist with
  | [] => Ok None
  | _ :: _ =>
      do k <- py_max_key (counter_get dist) (dist.*1);
      Ok (Some (k, counter_get dist k))
  end.

(** A Python [dict] keyed by strings, in insertion order. *)
Fixpoint str_get {V} (d : list (string * V)) (k : string) : option V :=
  match d with
  | [] => None
  | (k', v) :: d' => if decide (k = k') then Some v else str_get d' k
  end.

Fixpoint str_set {V} (d : list (string * V)) (k : string) (v : V)
  : list (string * V) :=
  match d with
  | [] => [(k, v)]
  | (k', v') :: d' =>
      if decide (k = k') then (k, v) :: d' else (k', v') :: str_set d' k v
  end.

(** The body of the loop of [inconsistency_witnesses].  After the first
    [if], [out[k]] exists; [max_per_answer] is any integer. *)
Definition witness_step (use_normalized : bool) (max_per_answer : Z)
    (out : list (string * list CollapsePlan)) (r : RunResult)
  : list (string * list CollapsePlan) :=
  let k :=
    match normalized_root r with
    | Some s => if use_normalized then s
                else _answer_key (answer_text (root_answer r))
    | None => _answer_key (answer_text (root_answer r))
    end in
  let out := match str_get out k with
             | None => str_set out k []
             | Some _ => out
             end in
  match str_get out k with
  | Some plans =>
      if decide (Z.of_nat (length plans) < max_per_answer)%Z
      then str_set out k (plans ++ [run_plan r])
      else out
  | None => out
  end.

(** [inconsistency_witnesses] *)
Definition inconsistency_witnesses (report : ConsistencyReport)
    (use_normalized : bool) (max_per_answer : Z)
  : list (string * list CollapsePlan) :=
  foldl (witness_step use_normalized max_per_answer) [] (runs report).

(** The plans of the runs that gave the answer [a], in the order of the
    runs. *)
Definition plans_of_answer (use_normalized : bool) (a : string)
    (rs : list RunResult) : list CollapsePlan :=
  run_plan <$> filter (λ r, answer_key_of use_normalized r = a) rs.

(** The plan that cuts above every node but the root. *)
Definition cut_everything (t : ToQ) : CollapsePlan :=
  mkCollapsePlan (sorted (non_root_ids t)).

(** A two-node mapping whose nodes are each other's parent. *)
Definition cycle : ToQ :=
  mkToQ [(0, question 0 (Some 1)); (1, question 1 (Some 0))]%Z 0%Z.

Definition three_questions : gmap Z string :=
  <[2%Z := "Q3"%string]> two_questions.

(** Closed facts about the sample trees are settled by evaluation. *)
Ltac by_evaluation :=
  lazymatch goal with
  | |- valid_toq _ =>
      split; [unfold dict_wf; apply (bool_decide_unpack _); vm_compute; exact I
             | vm_compute; reflexivity]
  | |- ∀ x, x ∈ _ → _ =>
      apply Forall_forall, (bool_decide_unpack _); vm_compute; exact I
  | |- _ = _ => vm_compute; reflexivity
  | |- _ => apply (bool_decide_unpack _); vm_compute; exact I
  end.

(** * Properties *)

(** ** Sorting and dictionaries *)

Section sorted_facts.
Implicit Types l : list Z.

Lemma sorted_perm l : sorted l ≡ₚ l.
Proof. apply merge_sort_Permutation. Qed.

Lemma elem_of_sorted l x : x ∈ sorted l ↔ x ∈ l.
Proof. by rewrite sorted_perm. Qed.

Lemma length_sorted l : length (sorted l) = length l.
Proof. by rewrite sorted_perm. Qed.

Lemma NoDup_sorted l : NoDup (sorted l) ↔ NoDup l.
Proof. by rewrite sorted_perm. Qed.

Lemma sorted_le l : StronglySorted Z.le (sorted l).
Proof. apply (StronglySorted_merge_sort _). Qed.

(** Ascending and free of duplicates is strictly ascending. *)
Lemma sorted_lt l : NoDup l → StronglySorted Z.lt (sorted l).
Proof.
  intros Hnd%NoDup_sorted. pose proof (sorted_le l) as Hs.
  induction Hs as [|x xs Hs IH Hall]; [constructor|].
  apply NoDup_cons in Hnd as [Hx Hnd]. constructor; [by apply IH|].
  apply Forall_forall. intros y Hy.
  rewrite Forall_forall in Hall. specialize (Hall y Hy).
  assert (x ≠ y) by (intros ->; done). lia.
Qed.

End sorted_facts.

Section dict_facts.
Context {V : Type}.
Implicit Types d : list (Z * V).

Lemma dict_get_elem_of d k v : dict_get d k = Some v → (k, v) ∈ d.
Proof.
  induction d as [|[k' v'] d IH]; simpl; [done|].
  case_decide; intros; simplify_eq; [left | right; auto].
Qed.

Lemma dict_get_None d k : dict_get d k = None ↔ k ∉ keys d.
Proof.
  unfold keys. induction d as [|[k' v'] d IH]; simpl.
  - split; [intros _; apply not_elem_of_nil | done].
  - rewrite not_elem_of_cons, <- IH. case_decide; [|tauto].
    split; [done | by intros [? _]].
Qed.

Lemma dict_get_is_Some d k : is_Some (dict_get d k) ↔ k ∈ keys d.
Proof.
  destruct (dict_get d k) eqn:E.
  - split; [intros _ | by eauto].
    destruct (decide (k ∈ keys d)) as [|Hn]; [done|].
    apply dict_get_None in Hn. congruence.
  - split; [by intros [? ?] | intros Hin]. by apply dict_get_None in E.
Qed.

Lemma dict_get_Some d k v : dict_wf d → (k, v) ∈ d → dict_get d k = Some v.
Proof.
  unfold dict_wf, keys. induction d as [|[k' v'] d IH]; simpl.
  - by intros _ ?%elem_of_nil.
  - intros [Hk Hnd]%NoDup_cons [Heq|Hin]%elem_of_cons; case_decide.
    + congruence.
    + congruence.
    + subst. exfalso. apply Hk. apply list_elem_of_fmap. by exists (k', v).
    + by apply IH.
Qed.

End dict_facts.

(** ** What [validate] establishes *)

Section valid_facts.
Context (t : ToQ) (Hval : validate t = Ok tt).

Lemma valid_root :
  ∃ rn, dict_get (nodes t) (root_id t) = Some rn ∧ parent rn = None.
Proof using Hval.
  unfold validate in Hval.
  destruct (dict_get (nodes t) (root_id t)) as [rn|]; [|done].
  destruct (parent rn) eqn:E; [done|]. eauto.
Qed.

Lemma valid_root_key : root_id t ∈ keys (nodes t).
Proof using Hval.
  destruct valid_root as (rn & Hrn & _). apply dict_get_is_Some; eauto.
Qed.

Lemma valid_parent_of_root : parent_of t (root_id t) = None.
Proof using Hval.
  destruct valid_root as (rn & Hrn & Hp). unfold parent_of. by rewrite Hrn.
Qed.

Lemma valid_item k n :
  (k, n) ∈ nodes t → k ≠ root_id t →
  ∃ p, parent n = Some p ∧ p ∈ keys (nodes t).
Proof using Hval.
  intros Hin Hne. unfold validate in Hval.
  destruct (dict_get (nodes t) (root_id t)) as [rn|]; [|done].
  destruct (parent rn); [done|].
  destruct (existsb (dangling t) (nodes t)) eqn:Hd; [done|].
  destruct (existsb (second_root t) (nodes t)) eqn:Hs; [done|].
  apply not_true_iff_false in Hd, Hs.
  rewrite existsb_exists in Hd, Hs.
  destruct (parent n) as [p|] eqn:Hp.
  - exists p; split; [done|].
    destruct (decide (p ∈ keys (nodes t))) as [|Hnot]; [done|].
    exfalso. apply Hd. exists (k, n). split; [by apply list_elem_of_In|].
    unfold dangling; simpl. rewrite Hp.
    by rewrite !bool_decide_eq_true_2.
  - exfalso. apply Hs. exists (k, n). split; [by apply list_elem_of_In|].
    unfold second_root; simpl. rewrite Hp.
    by rewrite bool_decide_eq_true_2.
Qed.

Lemma valid_parent k :
  k ∈ keys (nodes t) → k ≠ root_id t →
  ∃ p, parent_of t k = Some p ∧ p ∈ keys (nodes t).
Proof using Hval.
  intros [n Hn]%dict_get_is_Some Hne.
  destruct (valid_item k n) as (p & Hp & Hin); [by apply dict_get_elem_of|done|].
  exists p. unfold parent_of. rewrite Hn. done.
Qed.

Lemma parent_of_key k p : parent_of t k = Some p → k ∈ keys (nodes t).
Proof.
  unfold parent_of. intros H. apply dict_get_is_Some.
  destruct (dict_get (nodes t) k); [eauto | done].
Qed.

Lemma valid_parent_key k p :
  parent_of t k = Some p → p ∈ keys (nodes t).
Proof using Hval.
  intros H. destruct (decide (k = root_id t)) as [->|Hne].
  - by rewrite valid_parent_of_root in H.
  - destruct (valid_parent k) as (p' & Hp' & Hin);
      [by eapply parent_of_key | done | congruence].
Qed.

Lemma valid_no_parent k :
  k ∈ keys (nodes t) → parent_of t k = None → k = root_id t.
Proof using Hval.
  intros Hk Hp. destruct (decide (k = root_id t)) as [|Hne]; [done|].
  destruct (valid_parent k) as (p & Hp' & _); [done..|congruence].
Qed.

Lemma reaches_root_rooted fuel k :
  reaches_root t fuel k = true → ∃ d, d ≤ fuel ∧ rooted t k d.
Proof.
  revert k. induction fuel as [|f IH]; intros k; simpl.
  - case_decide; [|done]. subst. exists 0. split; [lia | constructor].
  - case_decide; [subst; exists 0; split; [lia | constructor]|].
    destruct (parent_of t k) as [p|] eqn:Hp; [|done].
    intros (d & Hd & Hr)%IH. exists (S d). split; [lia|].
    by econstructor.
Qed.

Lemma valid_rooted k :
  k ∈ keys (nodes t) → ∃ d, d ≤ length (nodes t) ∧ rooted t k d.
Proof using Hval.
  intros Hk. apply reaches_root_rooted.
  unfold validate in Hval.
  destruct (dict_get (nodes t) (root_id t)) as [rn|]; [|done].
  destruct (parent rn); [done|].
  destruct (existsb (dangling t) (nodes t)); [done|].
  destruct (existsb (second_root t) (nodes t)); [done|].
  destruct (forallb _ _) eqn:Hf; [|done].
  rewrite forallb_forall in Hf. apply Hf. by apply list_elem_of_In.
Qed.

Lemma rooted_det k d1 d2 : rooted t k d1 → rooted t k d2 → d1 = d2.
Proof.
  intros H1. revert d2. induction H1 as [|k p d Hne Hp Hr IH]; intros d2 H2.
  - by inversion H2.
  - inversion H2; subst; [done|]. f_equal. apply IH. congruence.
Qed.

End valid_facts.

(** The bound of the fifth check of [validate] loses nothing: a node that
    reaches the root at all does so within as many steps as there are
    nodes. *)
Lemma rooted_walk t k d :
  rooted t k d →
  ∃ l, length l = d ∧ NoDup l ∧
       ∀ x, x ∈ l → x ∈ keys (nodes t) ∧ ∃ d', rooted t x d' ∧ d' ≤ d ∧ 0 < d'.
Proof.
  induction 1 as [|k p d Hne Hp Hr (l & Hlen & Hnd & Hl)].
  - exists []. split_and!; [done | constructor|]. by intros x ?%elem_of_nil.
  - exists (k :: l). split_and!.
    + simpl. by rewrite Hlen.
    + constructor; [|done]. intros (_ & d' & Hd' & Hle & _)%Hl.
      assert (d' = S d); [|lia].
      eapply rooted_det; [done|]. by econstructor.
    + intros x [->|Hx]%elem_of_cons.
      * split; [by eapply parent_of_key|]. exists (S d).
        split_and!; [by econstructor | lia..].
      * destruct (Hl x Hx) as (? & d' & ? & ? & ?). split; [done|].
        exists d'. split_and!; [done | lia | done].
Qed.

Lemma reaches_root_complete t k d :
  rooted t k d → reaches_root t (length (nodes t)) k = true.
Proof.
  intros Hr. destruct (rooted_walk t k d Hr) as (l & Hlen & Hnd & Hl).
  assert (d ≤ length (nodes t)) as Hd.
  { assert (l ⊆+ keys (nodes t)) as Hsub.
    { apply NoDup_submseteq; [done|]. intros x Hx. by apply Hl. }
    apply submseteq_length in Hsub. unfold keys in Hsub.
    rewrite length_fmap in Hsub. lia. }
  clear -Hr Hd. revert Hd. generalize (length (nodes t)) as fuel.
  induction Hr as [|k p d Hne Hp Hr IH]; intros fuel Hd.
  - destruct fuel; simpl; by rewrite decide_True.
  - destruct fuel as [|f]; [lia|]. simpl.
    rewrite decide_False by done. rewrite Hp. apply IH. lia.
Qed.

(** ** [component_roots] *)

Lemma elem_of_component_roots toq plan x :
  x ∈ component_roots toq plan ↔ x = root_id toq ∨ x ∈ cut_edges plan.
Proof.
  unfold component_roots. rewrite elem_of_sorted, elem_of_elements.
  rewrite elem_of_union, elem_of_list_to_set, elem_of_singleton. tauto.
Qed.

Lemma NoDup_component_roots toq plan : NoDup (component_roots toq plan).
Proof. apply NoDup_sorted, NoDup_elements. Qed.

Lemma component_roots_ascending toq plan :
  StronglySorted Z.lt (component_roots toq plan).
Proof. apply sorted_lt, NoDup_elements. Qed.

Lemma length_component_roots_le toq plan :
  length (component_roots toq plan) ≤ length (cut_edges plan) + 1.
Proof.
  assert (component_roots toq plan ⊆+ root_id toq :: cut_edges plan) as Hsub.
  { apply NoDup_submseteq; [apply NoDup_component_roots|].
    intros x Hx%elem_of_component_roots. set_solver. }
  apply submseteq_length in Hsub. simpl in Hsub. lia.
Qed.

Lemma length_component_roots toq plan :
  NoDup (cut_edges plan) → root_id toq ∉ cut_edges plan →
  length (component_roots toq plan) = length (cut_edges plan) + 1.
Proof.
  intros Hnd Hroot.
  assert (component_roots toq plan ≡ₚ root_id toq :: cut_edges plan) as Hp.
  { apply NoDup_Permutation.
    - apply NoDup_component_roots.
    - by constructor.
    - intros x. rewrite elem_of_component_roots. set_solver. }
  rewrite Hp. simpl. lia.
Qed.

(** C5 (as amended).  [component_roots] returns the strictly ascending list
    whose members are exactly [root_id] and the cut edges, so it always holds
    [root_id]; it has at most [|cut_edges| + 1] entries, and exactly that many
    when [cut_edges] is free of duplicates and does not hold [root_id]. *)
Theorem component_roots_sorted_union toq plan :
  StronglySorted Z.lt (component_roots toq plan) ∧
  (∀ x, x ∈ component_roots toq plan ↔ x = root_id toq ∨ x ∈ cut_edges plan) ∧
  root_id toq ∈ component_roots toq plan ∧
  length (component_roots toq plan) ≤ length (cut_edges plan) + 1 ∧
  (NoDup (cut_edges plan) → root_id toq ∉ cut_edges plan →
   length (component_roots toq plan) = length (cut_edges plan) + 1).
Proof.
  split_and!.
  - apply component_roots_ascending.
  - apply elem_of_component_roots.
  - apply elem_of_component_roots. by left.
  - apply length_component_roots_le.
  - apply length_component_roots.
Qed.

(** ** [_component_root] *)

Lemma component_root_loop_rooted t cut k d :
  validate t = Ok tt → rooted t k d →
  ∃ r, stops_at t cut k r ∧
       ∀ fuel, d < fuel → _component_root_loop t cut fuel k = Ok r.
Proof.
  intros Hval Hr. induction Hr as [|k p d Hne Hp Hr (r & Hs & IH)].
  - destruct (valid_root t Hval) as (rn & Hrn & Hpar).
    exists (root_id t). split; [econstructor; eauto|].
    intros [|f] ?; [lia|]. simpl. unfold subscript. by rewrite Hrn; simpl; rewrite Hpar.
  - unfold parent_of in Hp.
    destruct (dict_get (nodes t) k) as [n|] eqn:Hn; [simpl in Hp|done].
    destruct (decide (k ∈ cut)) as [Hin|Hout].
    + exists k. split; [econstructor; eauto|].
      intros [|f] ?; [lia|]. simpl. unfold subscript. rewrite Hn; simpl.
      rewrite Hp. by rewrite decide_True.
    + exists r. split; [by eapply stop_above|].
      intros [|f] ?; [lia|]. simpl. unfold subscript. rewrite Hn; simpl.
      rewrite Hp. rewrite decide_False by done. apply IH. lia.
Qed.

Lemma stops_at_in_cut t cut k r : stops_at t cut k r → k ∈ cut → r = k.
Proof. by destruct 1. Qed.

Lemma stops_at_det t cut k r1 r2 :
  stops_at t cut k r1 → stops_at t cut k r2 → r1 = r2.
Proof.
  intros H1. revert r2. induction H1 as [cur n Hn Hstop|cur n p r Hn Hp Hcut H1 IH];
    intros r2 H2; inversion H2; subst; simplify_eq; try done.
  - destruct Hstop; [congruence | done].
  - destruct H0; [congruence | done].
  - by apply IH.
Qed.

(** C8.  On a valid tree the upward walk from any of its nodes terminates:
    [_component_root] returns a node [r], any larger iteration budget gives
    the same [r], and [r] is the first node of the walk whose parent is
    [None] or which is itself in the cut set; a start node in the cut set is
    returned at once. *)
Theorem component_root_terminates (t : ToQ) (nid : Z) (cut : gset Z) :
  valid_toq t → nid ∈ keys (nodes t) →
  ∃ r, _component_root t nid cut = Ok r ∧
       (∀ fuel, length (nodes t) < fuel →
                _component_root_loop t cut fuel nid = Ok r) ∧
       stops_at t cut nid r ∧
       (nid ∈ cut → r = nid).
Proof.
  intros [_ Hval] Hk.
  destruct (valid_rooted t Hval nid Hk) as (d & Hd & Hr).
  destruct (component_root_loop_rooted t cut nid d Hval Hr) as (r & Hs & Hloop).
  exists r. split_and!.
  - apply Hloop. lia.
  - intros fuel ?. apply Hloop. lia.
  - done.
  - by eapply stops_at_in_cut.
Qed.

(** ** [itertools.combinations] *)

Section combinations_facts.
Context {A : Type}.
Implicit Types (l s : list A) (r : nat).

Lemma combinations_0 l : combinations l 0 = [[]].
Proof. by destruct l. Qed.

Lemma combinations_cons x l r :
  combinations (x :: l) (S r)
  = (cons x <$> combinations l r) ++ combinations l (S r).
Proof. done. Qed.

(** The generator emits exactly the sub-sequences of length [r]. *)
Lemma elem_of_combinations l r s :
  s ∈ combinations l r ↔ s `sublist_of` l ∧ length s = r.
Proof.
  revert r s. induction l as [|x l IH]; intros [|r] s.
  - simpl. rewrite list_elem_of_singleton. split.
    + by intros ->.
    + intros [_ Hlen]. by destruct s.
  - simpl. split; [by intros ?%elem_of_nil|].
    intros [->%sublist_nil_r Hlen]. done.
  - rewrite combinations_0, list_elem_of_singleton. split.
    + intros ->. split; [apply sublist_nil_l | done].
    + intros [_ Hlen]. by destruct s.
  - rewrite combinations_cons, elem_of_app, list_elem_of_fmap, sublist_cons_r.
    setoid_rewrite IH. split.
    + intros [(s' & -> & Hsub & Hlen)|[Hsub Hlen]].
      * split; [right; eauto | simpl; lia].
      * split; [by left | done].
    + intros [[Hsub|(s' & -> & Hsub)] Hlen].
      * by right.
      * left. exists s'. simpl in Hlen. split_and!; [done..|lia].
Qed.

Lemma NoDup_combinations l r : NoDup l → NoDup (combinations l r).
Proof.
  intros Hnd. revert r. induction Hnd as [|x l Hx Hnd IH]; intros [|r].
  - apply NoDup_singleton.
  - apply NoDup_nil_2.
  - rewrite combinations_0. apply NoDup_singleton.
  - rewrite combinations_cons. apply NoDup_app. split_and!.
    + apply NoDup_fmap_2; [|done]. by intros ?? [=].
    + intros s (s' & -> & _)%list_elem_of_fmap [Hsub _]%elem_of_combinations.
      apply Hx. eapply sublist_submseteq, submseteq_cons_l in Hsub
        as (k & Hperm & _).
      rewrite Hperm. left.
    + done.
Qed.

(** A sub-sequence of a duplicate-free list is determined by its members. *)
Lemma sublist_Permutation_eq l s1 s2 :
  NoDup l → s1 `sublist_of` l → s2 `sublist_of` l → s1 ≡ₚ s2 → s1 = s2.
Proof.
  intros Hnd. revert s1 s2.
  induction Hnd as [|x l Hx Hnd IH]; intros s1 s2 H1 H2 Hp.
  - apply sublist_nil_r in H1, H2. by subst.
  - assert (∀ s, s `sublist_of` l → x ∉ s) as Hfresh.
    { intros s Hs Hin. apply Hx.
      eapply elem_of_submseteq; [done | by apply sublist_submseteq]. }
    apply sublist_cons_r in H1 as [H1|(s1' & -> & H1)];
      apply sublist_cons_r in H2 as [H2|(s2' & -> & H2)].
    + by apply IH.
    + exfalso. apply (Hfresh s1 H1). rewrite Hp. left.
    + exfalso. apply (Hfresh s2 H2). rewrite <- Hp. left.
    + f_equal. apply IH; [done..|]. by eapply (inj (cons x)).
Qed.
End combinations_facts.

Lemma combinations_fmap {A B} (f : A → B) (l : list A) (r : nat) :
  combinations (f <$> l) r = fmap (M:=list) f <$> combinations l r.
Proof.
  revert r. induction l as [|x l IH]; intros [|r]; csimpl; try done.
  rewrite fmap_app, !IH, <- !list_fmap_compose. done.
Qed.

(** The position tuples come out in strictly increasing lexicographic
    order. *)
Lemma combinations_seq_lex (a n r : nat) :
  StronglySorted lex_lt (combinations (seq a n) r).
Proof.
  revert a r. induction n as [|n IH]; intros a [|r]; simpl.
  - repeat constructor.
  - constructor.
  - repeat constructor.
  - apply StronglySorted_app_2.
    + intros s1 s2 (s1' & -> & _)%list_elem_of_fmap [Hsub Hlen]%elem_of_combinations.
      destruct s2 as [|j s2]; [done|]. constructor.
      assert (j ∈ seq (S a) n) as Hj%elem_of_seq; [|lia].
      eapply elem_of_submseteq; [left | by apply sublist_submseteq].
    + specialize (IH (S a) r).
      induction IH as [|s ss Hss IHs Hall]; csimpl; constructor; [done|].
      apply Forall_fmap. eapply Forall_impl; [done|].
      intros s' ?. by constructor.
    + apply IH.
Qed.

(** A list read back through its positions. *)
Lemma fmap_nth_seq {A} (d : A) (l : list A) :
  (λ i, nth i l d) <$> seq 0 (length l) = l.
Proof.
  induction l as [|x l IH]; csimpl; [done|].
  f_equal. rewrite <- fmap_S_seq, <- list_fmap_compose. done.
Qed.

Lemma combinations_by_position {A} (d : A) (l : list A) (r : nat) :
  combinations l r
  = fmap (M:=list) (λ i, nth i l d) <$> combinations (seq 0 (length l)) r.
Proof. by rewrite <- combinations_fmap, fmap_nth_seq. Qed.

Lemma combinations_below_S {A} (l : list A) (m : nat) :
  combinations_below l (S m) = combinations_below l m ++ combinations l m.
Proof.
  unfold combinations_below.
  rewrite seq_S, fmap_app, concat_app. simpl. by rewrite app_nil_r.
Qed.

Lemma elem_of_combinations_below {A} (l s : list A) (m : nat) :
  s ∈ combinations_below l m ↔ s `sublist_of` l ∧ length s < m.
Proof.
  induction m as [|m IH].
  - unfold combinations_below. simpl. split; [by intros ?%elem_of_nil | lia].
  - rewrite combinations_below_S, elem_of_app, IH, elem_of_combinations.
    split; [intros [[? ?]|[? ?]]; split; try done; lia|].
    intros [? ?]. destruct (decide (length s = m)); [by right | left].
    split; [done | lia].
Qed.

Lemma NoDup_combinations_below {A} (l : list A) (m : nat) :
  NoDup l → NoDup (combinations_below l m).
Proof.
  intros Hnd. induction m as [|m IH]; [constructor|].
  rewrite combinations_below_S. apply NoDup_app. split_and!.
  - done.
  - intros s [_ ?]%elem_of_combinations_below [_ ?]%elem_of_combinations. lia.
  - by apply NoDup_combinations.
Qed.

Lemma length_combinations_below_cons {A} (x : A) (l : list A) (m : nat) :
  length (combinations_below (x :: l) (S m))
  = length (combinations_below l m) + length (combinations_below l (S m)).
Proof.
  induction m as [|m IH].
  - unfold combinations_below. simpl. by rewrite combinations_0.
  - rewrite (combinations_below_S (x :: l)), length_app, IH.
    rewrite combinations_cons, length_app, length_fmap.
    rewrite (combinations_below_S l (S m)), (combinations_below_S l m).
    rewrite !length_app. lia.
Qed.

(** There are [2 ^ |l|] combinations in all. *)
Lemma length_combinations_below {A} (l : list A) (m : nat) :
  length l < m → length (combinations_below l m) = 2 ^ length l.
Proof.
  revert m. induction l as [|x l IH]; intros m Hm.
  - destruct m as [|m]; [simpl in Hm; lia|]. clear Hm.
    induction m as [|m IHm]; [done|].
    rewrite combinations_below_S, length_app, IHm. done.
  - destruct m as [|m]; [lia|]. simpl in Hm.
    rewrite length_combinations_below_cons, !IH by lia.
    simpl. lia.
Qed.

(** ** [enumerate_collapse_plans] *)

Lemma append_loop {A B} (g : A → B) (acc : list B) (l : list A) :
  foldl (λ plans subset, plans ++ [g subset]) acc l = acc ++ (g <$> l).
Proof.
  revert acc. induction l as [|x l IH]; intros acc; csimpl.
  - by rewrite app_nil_r.
  - rewrite IH, <- app_assoc. done.
Qed.

Lemma size_loop (edges : list Z) (include_empty : bool) acc (rs : list nat) :
  (include_empty = false → 0 ∉ rs) →
  foldl (λ plans r,
           if (r =? 0) && negb include_empty then plans
           else foldl (λ plans subset, plans ++ [mkCollapsePlan (sorted subset)])
                      plans (combinations edges r))
        acc rs
  = acc ++ concat (plans_of_size edges <$> rs).
Proof.
  revert acc. induction rs as [|r rs IH]; intros acc Hrs; csimpl.
  - by rewrite app_nil_r.
  - assert ((r =? 0) && negb include_empty = false) as ->.
    { destruct include_empty; [by rewrite andb_false_r|].
      rewrite andb_true_r. apply Nat.eqb_neq. intros ->.
      apply Hrs; [done | left]. }
    rewrite IH, append_loop, <- app_assoc; [done|].
    intros H0 Hin. apply (Hrs H0). by right.
Qed.

(** The loops of [enumerate_collapse_plans] in closed form. *)
Lemma enumerate_collapse_plans_eq toq include_empty :
  validate toq = Ok tt →
  enumerate_collapse_plans toq include_empty
  = Ok (concat (plans_of_size (non_root_ids toq)
                  <$> seq (if include_empty then 0 else 1)
                          (if include_empty
                           then S (length (non_root_ids toq))
                           else length (non_root_ids toq)))).
Proof.
  intros Hval. unfold enumerate_collapse_plans. rewrite Hval. simpl.
  fold (non_root_ids toq). f_equal.
  rewrite Nat.add_1_r. destruct include_empty.
  - rewrite size_loop; done.
  - rewrite <- cons_seq.
    change (foldl ?f ?a (?x :: ?l)) with (foldl f (f a x) l).
    cbv beta. change ((0 =? 0) && negb false) with true. cbv iota.
    rewrite size_loop; [done|].
    intros _ Hin%elem_of_seq. lia.
Qed.

Lemma plans_concat (edges : list Z) (a m : nat) :
  concat (plans_of_size edges <$> seq a m)
  = (λ subset, mkCollapsePlan (sorted subset))
      <$> concat (combinations edges <$> seq a m).
Proof.
  revert a. induction m as [|m IH]; intros a; csimpl; [done|].
  rewrite fmap_app, IH. done.
Qed.

Lemma NoDup_non_root_ids toq : dict_wf (nodes toq) → NoDup (non_root_ids toq).
Proof. intros Hwf. by apply NoDup_filter. Qed.

Lemma length_non_root_ids toq :
  valid_toq toq → length (nodes toq) = S (length (non_root_ids toq)).
Proof.
  intros [Hwf Hval]. pose proof (valid_root_key toq Hval) as Hroot.
  unfold non_root_ids, dict_wf in *.
  rewrite <- (length_fmap fst (nodes toq)). fold (keys (nodes toq)).
  induction (keys (nodes toq)) as [|x l IH]; [by apply elem_of_nil in Hroot|].
  apply NoDup_cons in Hwf as [Hx Hnd].
  rewrite filter_cons. destruct (decide (x = root_id toq)) as [->|Hne].
  - rewrite decide_False by (by intros ?). simpl. f_equal.
    clear IH Hroot. induction l as [|y l IH]; [done|].
    apply not_elem_of_cons in Hx as [? ?]. apply NoDup_cons in Hnd as [? ?].
    rewrite filter_cons, decide_True by done. simpl. f_equal. by apply IH.
  - rewrite decide_True by done. simpl. f_equal. apply IH; try done.
    apply elem_of_cons in Hroot as [|]; [congruence | done].
Qed.

Lemma elem_of_concat {A} (x : A) (ls : list (list A)) :
  x ∈ concat ls ↔ ∃ l, l ∈ ls ∧ x ∈ l.
Proof.
  rewrite list_elem_of_In, in_concat.
  by setoid_rewrite list_elem_of_In.
Qed.

Lemma elem_of_plans (edges : list Z) (a m : nat) (p : CollapsePlan) :
  p ∈ concat (plans_of_size edges <$> seq a m) →
  ∃ s, p = mkCollapsePlan (sorted s) ∧ s `sublist_of` edges.
Proof.
  rewrite plans_concat.
  intros (s & -> & (ss & (r & -> & _)%list_elem_of_fmap & Hs)%elem_of_concat)
    %list_elem_of_fmap.
  exists s. split; [done|]. by apply elem_of_combinations in Hs as [? _].
Qed.

(** C3.  A valid tree with [k] nodes besides the root has [2 ^ k] plans, the
    empty plan first; without the empty plan the very same plans remain,
    [2 ^ k - 1] of them.  The plans are pairwise distinct and each lists its
    cut edges in strictly ascending order. *)
Theorem enumerate_collapse_plans_count (toq : ToQ) (k : nat) :
  valid_toq toq → length (nodes toq) = S k →
  ∃ plans,
    enumerate_collapse_plans toq true = Ok (mkCollapsePlan [] :: plans) ∧
    enumerate_collapse_plans toq false = Ok plans ∧
    length (mkCollapsePlan [] :: plans) = 2 ^ k ∧
    length plans = 2 ^ k - 1 ∧
    NoDup (mkCollapsePlan [] :: plans) ∧
    ∀ p, p ∈ mkCollapsePlan [] :: plans → StronglySorted Z.lt (cut_edges p).
Proof.
  intros Hvalid Hk. pose proof (length_non_root_ids toq Hvalid) as Hlen.
  destruct Hvalid as [Hwf Hval].
  assert (length (non_root_ids toq) = k) as Hedges by lia. clear Hk Hlen.
  pose proof (NoDup_non_root_ids toq Hwf) as Hnd.
  exists (concat (plans_of_size (non_root_ids toq) <$> seq 1 k)).
  assert (mkCollapsePlan [] :: concat (plans_of_size (non_root_ids toq) <$> seq 1 k)
          = concat (plans_of_size (non_root_ids toq) <$> seq 0 (S k))) as Hall.
  { rewrite <- cons_seq. csimpl. unfold plans_of_size at 2.
    by rewrite combinations_0. }
  assert (length (concat (plans_of_size (non_root_ids toq) <$> seq 0 (S k)))
          = 2 ^ k) as Hcount.
  { rewrite plans_concat, length_fmap.
    fold (combinations_below (non_root_ids toq) (S k)).
    rewrite length_combinations_below by lia. by rewrite Hedges. }
  split_and!.
  - rewrite Hall, enumerate_collapse_plans_eq, Hedges; done.
  - rewrite enumerate_collapse_plans_eq, Hedges; done.
  - by rewrite Hall.
  - rewrite <- Hall in Hcount. simpl in Hcount. lia.
  - rewrite Hall, plans_concat.
    fold (combinations_below (non_root_ids toq) (S k)).
    apply NoDup_fmap_2_strong; [|by apply NoDup_combinations_below].
    intros s1 s2 [H1 _]%elem_of_combinations_below
      [H2 _]%elem_of_combinations_below [= Heq].
    apply (sublist_Permutation_eq (non_root_ids toq)); [done..|].
    by rewrite <- (sorted_perm s1), <- (sorted_perm s2), Heq.
  - rewrite Hall. intros p (s & -> & Hsub)%elem_of_plans. simpl.
    apply sorted_lt. by eapply sublist_NoDup.
Qed.

(** C6 (as amended).  [edges] are the node ids other than the root in the
    order in which the [nodes] mapping holds them, which is ascending when the
    mapping is keyed in ascending order.  The plans are, for [r] from [0] (or
    from [1] when the empty plan is left out) to [k], the [r]-combinations of
    [edges], each sorted; the combinations of one size are all sub-sequences
    of that length, in strictly increasing lexicographic order of the
    positions they take in [edges]. *)
Theorem enumerate_collapse_plans_order (toq : ToQ) (include_empty : bool) :
  valid_toq toq →
  let edges := non_root_ids toq in
  let k := length edges in
  enumerate_collapse_plans toq include_empty
  = Ok (concat (plans_of_size edges
                  <$> seq (if include_empty then 0 else 1)
                          (if include_empty then S k else k))) ∧
  edges `sublist_of` keys (nodes toq) ∧
  (∀ x, x ∈ edges ↔ x ∈ keys (nodes toq) ∧ x ≠ root_id toq) ∧
  (StronglySorted Z.lt (keys (nodes toq)) → StronglySorted Z.lt edges) ∧
  (∀ r s, s ∈ combinations edges r ↔ s `sublist_of` edges ∧ length s = r) ∧
  (∀ r, combinations edges r
        = fmap (M:=list) (λ i, nth i edges 0%Z) <$> combinations (seq 0 k) r) ∧
  (∀ r, StronglySorted lex_lt (combinations (seq 0 k) r)).
Proof.
  intros [Hwf Hval] edges k. split_and!.
  - by apply enumerate_collapse_plans_eq.
  - apply sublist_filter.
  - intros x. unfold edges, non_root_ids. rewrite list_elem_of_filter. tauto.
  - intros Hs. unfold edges, non_root_ids.
    induction Hs as [|x l Hs IH Hall]; [constructor|].
    rewrite filter_cons. case_decide; [|done].
    constructor; [done|]. apply Forall_forall.
    intros y [_ Hy]%list_elem_of_filter. rewrite Forall_forall in Hall. auto.
  - apply elem_of_combinations.
  - intros r. apply combinations_by_position.
  - intros r. apply combinations_seq_lex.
Qed.

(** ** Integer division to a float *)

Section float_facts.
Local Open Scope Z_scope.

Lemma round_half_even_ties (num den : Z) :
  0 < den →
  let q := num / den in
  let r := num mod den in
  num = den * q + r ∧ 0 ≤ r < den ∧
  (round_half_even num den = q ∧ (2 * r < den ∨ 2 * r = den ∧ Z.even q = true) ∨
   round_half_even num den = q + 1 ∧ (den < 2 * r ∨ 2 * r = den ∧ Z.even q = false)).
Proof.
  intros Hden q r. pose proof (Z.div_mod num den ltac:(lia)) as Hdm.
  pose proof (Z.mod_pos_bound num den Hden) as Hr.
  split; [done|]. split; [done|]. unfold round_half_even. fold q r.
  repeat case_decide; [left; split; [done|lia] | right; split; [done|lia] |].
  destruct (Z.even q); [left|right]; split; try done; right; split; (done || lia).
Qed.

Lemma round_half_even_bounds (num den : Z) :
  0 < den →
  let q := num / den in
  let r := num mod den in
  num = den * q + r ∧ 0 ≤ r < den ∧
  (round_half_even num den = q ∧ 2 * r ≤ den ∨
   round_half_even num den = q + 1 ∧ den ≤ 2 * r).
Proof.
  intros Hden q r.
  destruct (round_half_even_ties num den Hden) as (Hdm & Hr & H).
  subst q r. split; [done|]. split; [done|].
  destruct H as [[-> H]|[-> H]]; [left | right]; (split; [done | lia]).
Qed.

Lemma round_half_even_le (num den N : Z) :
  0 < den → num ≤ N * den → round_half_even num den ≤ N.
Proof.
  intros Hden Hle.
  destruct (round_half_even_bounds num den Hden) as (Hdm & Hr & [[-> H]|[-> H]]); nia.
Qed.

Lemma round_half_even_ge (num den N : Z) :
  0 < den → N * den ≤ num → N ≤ round_half_even num den.
Proof.
  intros Hden Hle.
  destruct (round_half_even_bounds num den Hden) as (Hdm & Hr & [[-> H]|[-> H]]); nia.
Qed.

Lemma round_half_even_lt (num den N : Z) :
  0 < den → 2 * num < (2 * N - 1) * den → round_half_even num den < N.
Proof.
  intros Hden Hle.
  destruct (round_half_even_bounds num den Hden) as (Hdm & Hr & [[-> H]|[-> H]]); nia.
Qed.

Lemma round_half_even_nearest (num den : Z) :
  0 < den → 2 * Z.abs (round_half_even num den * den - num) ≤ den.
Proof.
  intros Hden.
  destruct (round_half_even_bounds num den Hden) as (Hdm & Hr & [[-> H]|[-> H]]); nia.
Qed.

Lemma ratio_exponent_spec (m n : Z) :
  0 < m ≤ n →
  let e := ratio_exponent m n in
  e ≤ 0 ∧ n ≤ m * 2 ^ (- e) < 2 * n.
Proof.
  intros [Hm Hmn]. unfold ratio_exponent.
  pose proof (Z.log2_spec m Hm) as [Hm1 Hm2].
  pose proof (Z.log2_spec n ltac:(lia)) as [Hn1 Hn2].
  pose proof (Z.log2_le_mono m n Hmn) as Hlog.
  pose proof (Z.log2_nonneg m) as Ha.
  set (a := Z.log2 m) in *. set (b := Z.log2 n) in *.
  rewrite Z.pow_succ_r in Hm2, Hn2 by lia.
  assert (2 ^ b = 2 ^ a * 2 ^ (b - a)) as Hpow.
  { rewrite <- Z.pow_add_r by lia. f_equal. lia. }
  assert (0 < 2 ^ (b - a)) as Hpos by (apply Z.pow_pos_nonneg; lia).
  destruct (decide (0 ≤ a - b)) as [Hd|Hd].
  - assert (a - b = 0) as Hab by lia. rewrite Hab in *.
    assert (b - a = 0) as Hba by lia. rewrite Hba in *. simpl in *.
    case_decide.
    + simpl. lia.
    + change (- (0 - 1)) with 1. simpl. lia.
  - replace (- (a - b)) with (b - a) by lia. case_decide.
    + split; [lia|]. replace (- (a - b)) with (b - a) by lia. nia.
    + split; [lia|]. replace (- (a - b - 1)) with (Z.succ (b - a)) by lia.
      rewrite Z.pow_succ_r by lia. nia.
Qed.
Lemma Qred_frac_le (a b : Z) (s : Z) :
  0 ≤ s → (Qred (a # Z.to_pos (2 ^ s)) <= b # 1)%Q ↔ a ≤ b * 2 ^ s.
Proof.
  intros Hs. rewrite Qred_correct. unfold Qle. simpl.
  rewrite Z2Pos.id by (apply Z.pow_pos_nonneg; lia). lia.
Qed.

Lemma Qred_frac_lt (a b : Z) (s : Z) :
  0 ≤ s → (Qred (a # Z.to_pos (2 ^ s)) < b # 1)%Q ↔ a < b * 2 ^ s.
Proof.
  intros Hs. rewrite Qred_correct. unfold Qlt. simpl.
  rewrite Z2Pos.id by (apply Z.pow_pos_nonneg; lia). lia.
Qed.

Lemma Qred_frac_gt (a b : Z) (s : Z) :
  0 ≤ s → (b # 1 < Qred (a # Z.to_pos (2 ^ s)))%Q ↔ b * 2 ^ s < a.
Proof.
  intros Hs. rewrite Qred_correct. unfold Qlt. simpl.
  rewrite Z2Pos.id by (apply Z.pow_pos_nonneg; lia). lia.
Qed.

Lemma truediv_pos_fraction (m n : Z) :
  0 < m ≤ n →
  let s := 52 - Z.max (ratio_exponent m n) (-1022) in
  52 ≤ s ∧
  (n < 2 ^ 1022 → n * 2 ^ 52 ≤ m * 2 ^ s) ∧
  truediv_pos m n = Ok (Qred (round_half_even (m * 2 ^ s) n # Z.to_pos (2 ^ s))).
Proof.
  intros Hmn s. destruct (ratio_exponent_spec m n Hmn) as (He & Hlo & Hhi).
  assert (52 ≤ s) as Hs by (unfold s; lia).
  split_and!; [done| |].
  - intros Hn. unfold s.
    destruct (Z.max_spec (ratio_exponent m n) (-1022)) as [[Hlt ->]|[Hge ->]].
    + change (52 - -1022) with (1022 + 52). rewrite Z.pow_add_r by lia.
      assert (0 < 2 ^ 52) by (apply Z.pow_pos_nonneg; lia).
      assert (0 < 2 ^ 1022) by (apply Z.pow_pos_nonneg; lia). nia.
    + replace (52 - ratio_exponent m n) with (- ratio_exponent m n + 52) by lia.
      rewrite Z.pow_add_r by lia.
      assert (0 < 2 ^ 52) by (apply Z.pow_pos_nonneg; lia). nia.
  - unfold truediv_pos. fold s. by rewrite decide_True by lia.
Qed.

Lemma truediv_pos_unit (m n : Z) :
  0 < m ≤ n →
  ∃ q, truediv_pos m n = Ok q ∧
       (q <= 1)%Q ∧
       (n < 2 ^ 1022 → (0 < q)%Q) ∧
       (m = n → q = 1%Q) ∧
       (m < n → n < 2 ^ 53 → (q < 1)%Q).
Proof.
  intros Hmn. destruct (truediv_pos_fraction m n Hmn) as (Hs & Hnorm & ->).
  set (s := 52 - Z.max (ratio_exponent m n) (-1022)) in *.
  assert (0 < 2 ^ s) as Hpow by (apply Z.pow_pos_nonneg; lia).
  assert (0 < 2 ^ 52) as Hpow52 by (apply Z.pow_pos_nonneg; lia).
  eexists. split; [done|]. split_and!.
  - apply (Qred_frac_le _ 1); [lia|]. apply round_half_even_le; nia.
  - intros Hn. apply (Qred_frac_gt _ 0); [lia|].
    specialize (Hnorm Hn).
    assert (2 ^ 52 ≤ round_half_even (m * 2 ^ s) n); [|lia].
    apply round_half_even_ge; lia.
  - intros ->.
    assert (round_half_even (n * 2 ^ s) n = 2 ^ s) as ->.
    { apply Z.le_antisymm; [apply round_half_even_le | apply round_half_even_ge]; lia. }
    change 1%Q with (Qred 1). apply Qred_complete. unfold Qeq. simpl.
    rewrite Z2Pos.id by done. lia.
  - intros Hlt Hn. apply (Qred_frac_lt _ 1); [lia|]. rewrite Z.mul_1_l.
    apply round_half_even_lt; [lia|].
    assert (2 ^ 53 ≤ 2 * 2 ^ s).
    { change (2 ^ 53) with (2 * 2 ^ 52). apply Z.mul_le_mono_nonneg_l; [lia|].
      apply Z.pow_le_mono_r; lia. }
    nia.
Qed.
Lemma round_half_even_mono (a b c d : Z) :
  0 < b → 0 < d → a * d ≤ c * b →
  round_half_even a b ≤ round_half_even c d.
Proof.
  intros Hb Hd Hle.
  destruct (round_half_even_ties a b Hb) as (Ha & Hr1 & H1).
  destruct (round_half_even_ties c d Hd) as (Hc & Hr2 & H2).
  set (q1 := a / b) in *. set (r1 := a mod b) in *.
  set (q2 := c / d) in *. set (r2 := c mod d) in *.
  assert (q1 ≤ q2) as Hq.
  { destruct (decide (q1 ≤ q2)) as [|Hgt]; [done|]. exfalso.
    assert (b * (q2 + 1) ≤ a) by nia.
    assert (c < d * (q2 + 1)) by nia.
    assert (d * (b * (q2 + 1)) ≤ d * a) by (apply Z.mul_le_mono_nonneg_l; lia).
    assert (b * c < b * (d * (q2 + 1))) by (apply Z.mul_lt_mono_pos_l; lia).
    lia. }
  destruct (decide (q1 = q2)) as [Heq|Hne].
  - rewrite Heq in *. assert (r1 * d ≤ r2 * b) as Hr by nia.
    destruct H1 as [[-> _]|[-> H1]], H2 as [[-> H2]|[-> _]]; try lia.
    exfalso. destruct H1 as [H1|[H1 Hodd]], H2 as [H2|[H2 Heven]];
      try congruence; nia.
  - destruct H1 as [[-> _]|[-> _]], H2 as [[-> _]|[-> _]]; lia.
Qed.

Lemma ratio_exponent_mono (a b c d : Z) :
  0 < a ≤ b → 0 < c ≤ d → a * d ≤ c * b →
  ratio_exponent a b ≤ ratio_exponent c d.
Proof.
  intros Hab Hcd Hle.
  destruct (ratio_exponent_spec a b Hab) as (He1 & Hlo1 & Hhi1).
  destruct (ratio_exponent_spec c d Hcd) as (He2 & Hlo2 & Hhi2).
  set (e1 := ratio_exponent a b) in *. set (e2 := ratio_exponent c d) in *.
  destruct (decide (e1 ≤ e2)) as [|Hgt]; [done|]. exfalso.
  assert (- e2 = Z.succ (- e1 + (e1 - e2 - 1))) as Heq by lia.
  rewrite Heq, Z.pow_succ_r, Z.pow_add_r in Hhi2, Hlo2 by lia.
  assert (0 < 2 ^ (- e1)) by (apply Z.pow_pos_nonneg; lia).
  assert (1 ≤ 2 ^ (e1 - e2 - 1)).
  { assert (0 < 2 ^ (e1 - e2 - 1)) by (apply Z.pow_pos_nonneg; lia). lia. }
  set (K := 2 ^ (- e1)) in *. set (J := 2 ^ (e1 - e2 - 1)) in *.
  assert (c * K < d) by nia.
  assert (a * (c * K) < a * d) by nia.
  assert (c * b ≤ c * (a * K)) by nia.
  nia.
Qed.

Lemma truediv_pos_mono (a b c d : Z) :
  0 < a ≤ b → 0 < c ≤ d → a * d ≤ c * b →
  ∃ q1 q2, truediv_pos a b = Ok q1 ∧ truediv_pos c d = Ok q2 ∧ (q1 <= q2)%Q.
Proof.
  intros Hab Hcd Hle.
  destruct (truediv_pos_fraction a b Hab) as (Hs1 & _ & ->).
  destruct (truediv_pos_fraction c d Hcd) as (Hs2 & _ & ->).
  destruct (ratio_exponent_spec a b Hab) as (He1 & Hlo1 & Hhi1).
  destruct (ratio_exponent_spec c d Hcd) as (He2 & Hlo2 & Hhi2).
  pose proof (ratio_exponent_mono a b c d Hab Hcd Hle) as Hmono.
  set (e1 := ratio_exponent a b) in *. set (e2 := ratio_exponent c d) in *.
  set (s1 := 52 - Z.max e1 (-1022)) in *. set (s2 := 52 - Z.max e2 (-1022)) in *.
  eexists _, _. split_and!; [done..|].
  rewrite !Qred_correct. unfold Qle. simpl.
  rewrite !Z2Pos.id by (apply Z.pow_pos_nonneg; lia).
  assert (0 < 2 ^ s1) as Hp1 by (apply Z.pow_pos_nonneg; lia).
  assert (0 < 2 ^ s2) as Hp2 by (apply Z.pow_pos_nonneg; lia).
  assert (0 < 2 ^ 52) as Hp52 by (apply Z.pow_pos_nonneg; lia).
  assert (s2 ≤ s1) as Hs by (unfold s1, s2; lia).
  destruct (decide (s1 = s2)) as [Heq|Hne].
  - rewrite Heq. apply Z.mul_le_mono_nonneg_r; [lia|].
    apply round_half_even_mono; [lia..|]. nia.
  - assert (s2 = - e2 + 52) as Hs2' by (unfold s1, s2 in *; lia).
    assert (2 ^ 52 ≤ round_half_even (c * 2 ^ s2) d) as HM2.
    { apply round_half_even_ge; [lia|]. rewrite Hs2', Z.pow_add_r by lia. nia. }
    assert (round_half_even (a * 2 ^ s1) b ≤ 2 * 2 ^ 52) as HM1.
    { apply round_half_even_le; [lia|].
      assert (2 ^ s1 ≤ 2 ^ (- e1 + 52)) as Hpow
        by (apply Z.pow_le_mono_r; unfold s1; lia).
      rewrite Z.pow_add_r in Hpow by lia. nia. }
    assert (2 * 2 ^ s2 ≤ 2 ^ s1) as Hpow.
    { rewrite <- Z.pow_succ_r by lia. apply Z.pow_le_mono_r; lia. }
    set (M1 := round_half_even (a * 2 ^ s1) b) in *.
    set (M2 := round_half_even (c * 2 ^ s2) d) in *.
    transitivity (2 * 2 ^ 52 * 2 ^ s2); [nia|].
    transitivity (2 ^ 52 * 2 ^ s1); nia.
Qed.
Lemma truediv_pos_accuracy (m n : Z) :
  0 < m ≤ n →
  ∃ q, truediv_pos m n = Ok q ∧
       ((m # Z.to_pos n) - (1 # 2 ^ 53) <= q)%Q ∧
       (q <= (m # Z.to_pos n) + (1 # 2 ^ 53))%Q.
Proof.
  intros Hmn. destruct (truediv_pos_fraction m n Hmn) as (Hs & _ & ->).
  set (s := 52 - Z.max (ratio_exponent m n) (-1022)) in *.
  assert (0 < 2 ^ s) as Hpow by (apply Z.pow_pos_nonneg; lia).
  assert (2 ^ 52 ≤ 2 ^ s) as Hpow52 by (apply Z.pow_le_mono_r; lia).
  pose proof (round_half_even_nearest (m * 2 ^ s) n ltac:(lia)) as Hnear.
  set (M := round_half_even (m * 2 ^ s) n) in *.
  eexists. split; [done|]. rewrite !Qred_correct.
  unfold Qle, Qminus, Qplus, Qopp. cbn [Qnum Qden].
  rewrite !Pos2Z.inj_mul, !Z2Pos.id by lia.
  change (Z.pos (2 ^ 53)) with (2 * 2 ^ 52).
  set (P := 2 ^ 52) in *. set (S := 2 ^ s) in *.
  assert (0 < P) by (apply Z.pow_pos_nonneg; lia).
  split; nia.
Qed.

(** On positive integers [/] is [truediv_pos]. *)
Lemma py_truediv_pos (m n : Z) :
  0 < m → 0 < n → py_truediv m n = truediv_pos m n.
Proof.
  intros Hm Hn. unfold py_truediv.
  rewrite !decide_False, !Z.abs_eq by lia.
  destruct (truediv_pos m n) as [q|e]; simpl; [|done].
  by rewrite decide_True by nia.
Qed.
End float_facts.

(** What [/] returns on a count [c] out of a total [n]: the double is within
    [2 ^ (-53)] of the exact quotient, it is at most [1], it is positive
    unless the quotient underflows, it is [1] when [c = n] and, for totals
    below [2 ^ 53], only then. *)
Lemma py_truediv_fraction (c n : nat) :
  0 < c ≤ n →
  ∃ q, py_truediv (Z.of_nat c) (Z.of_nat n) = Ok q ∧
       ((Z.of_nat c # Pos.of_nat n) - (1 # 2 ^ 53) <= q)%Q ∧
       (q <= (Z.of_nat c # Pos.of_nat n) + (1 # 2 ^ 53))%Q ∧
       (q <= 1)%Q ∧
       ((Z.of_nat n < 2 ^ 1022)%Z → (0 < q)%Q) ∧
       (c = n → q = 1%Q) ∧
       (c < n → (Z.of_nat n < 2 ^ 53)%Z → (q < 1)%Q).
Proof.
  intros Hcn.
  assert (0 < Z.of_nat c ≤ Z.of_nat n)%Z as Hmn by lia.
  assert (Z.to_pos (Z.of_nat n) = Pos.of_nat n) as Hpos.
  { rewrite <- (Nat2Pos.id n) at 1 by lia. by rewrite positive_nat_Z. }
  destruct (truediv_pos_unit _ _ Hmn) as (q & Hq & Hle & Hgt & Hone & Hlt).
  destruct (truediv_pos_accuracy _ _ Hmn) as (q' & Hq' & Hlo & Hhi).
  assert (q' = q) as -> by congruence. rewrite Hpos in Hlo, Hhi.
  exists q. rewrite py_truediv_pos by lia. split_and!; try done.
  - intros ->. by apply Hone.
  - intros Hc. apply Hlt. lia.
Qed.

(** ** [agreement_rate] *)

Lemma answer_keys_loop (use_normalized : bool) (acc : list string)
    (rs : list RunResult) :
  foldl (λ (keys : list string) (r : RunResult),
           match normalized_root r with
           | Some s => if use_normalized then keys ++ [s]
                       else keys ++ [_answer_key (answer_text (root_answer r))]
           | None => keys ++ [_answer_key (answer_text (root_answer r))]
           end) acc rs
  = acc ++ (answer_key_of use_normalized <$> rs).
Proof.
  revert acc. induction rs as [|r rs IH]; intros acc; csimpl.
  - by rewrite app_nil_r.
  - rewrite IH. unfold answer_key_of at 2.
    destruct (normalized_root r), use_normalized; by rewrite <- app_assoc.
Qed.

Lemma answer_distribution_eq report use_normalized :
  answer_distribution report use_normalized
  = Counter (answer_key_of use_normalized <$> runs report).
Proof. unfold answer_distribution. by rewrite answer_keys_loop. Qed.

Section counter_facts.
Implicit Types (d : list (string * nat)) (ks : list string).

Lemma counter_get_add d k k' :
counter_get (counter_add d k) k'
= if decide (k' = k) then S (counter_get d k) else counter_get d k'.
Proof.
induction d as [|[k0 c0] d IH]; simpl.
- by case_decide.
- destruct (decide (k = k0)) as [->|Hne]; simpl.
  + by repeat case_decide.
  + rewrite IH. repeat case_decide; simplify_eq; done.
Qed.

Lemma counter_keys_add d k :
(counter_add d k).*1 = if decide (k ∈ d.*1) then d.*1 else d.*1 ++ [k].
Proof.
induction d as [|[k0 c0] d IH]; csimpl; [done|].
destruct (decide (k = k0)) as [->|Hne]; csimpl.
- clear IH. case_decide as Hin; [done|]. exfalso. apply Hin. left.
- rewrite IH. repeat case_decide; try done; exfalso; set_solver.
Qed.

Lemma counter_sum_add d k :
sum_list (counter_add d k).*2 = S (sum_list d.*2).
Proof.
induction d as [|[k0 c0] d IH]; csimpl; [done|].
case_decide; csimpl; [done|]. rewrite IH. lia.
Qed.

Lemma counter_values d : NoDup d.*1 → d.*2 = counter_get d <$> d.*1.
Proof.
induction d as [|[k c] d IH]; csimpl; [done|].
intros [Hk Hnd]%NoDup_cons. rewrite decide_True by done. f_equal.
rewrite IH by done. apply list_fmap_ext. intros i k' Hk'.
rewrite decide_False; [done|]. intros ->. apply Hk.
by eapply list_elem_of_lookup_2.
Qed.

(** What the loop of [Counter] maintains. *)
Lemma counter_loop d ks :
NoDup d.*1 →
let d' := foldl counter_add d ks in
NoDup d'.*1 ∧
(∀ k, k ∈ d'.*1 ↔ k ∈ d.*1 ∨ k ∈ ks) ∧
(∀ k, counter_get d' k = counter_get d k + occurrences k ks) ∧
sum_list d'.*2 = sum_list d.*2 + length ks.
Proof.
revert d. induction ks as [|k ks IH]; intros d Hnd; simpl.
- split_and!; [done| |intros; unfold occurrences; simpl; lia|lia].
  intros k. rewrite elem_of_nil. tauto.
- assert (NoDup (counter_add d k).*1) as Hnd'.
  { rewrite counter_keys_add. case_decide; [done|].
    apply NoDup_app. split_and!; [done| |apply NoDup_singleton].
    intros x Hx ->%list_elem_of_singleton. done. }
  destruct (IH _ Hnd') as (H1 & H2 & H3 & H4). split_and!.
  + done.
  + intros k'. rewrite H2, counter_keys_add, elem_of_cons.
    case_decide; [|rewrite elem_of_app, list_elem_of_singleton];
      naive_solver.
  + intros k'. rewrite H3, counter_get_add. unfold occurrences.
    rewrite filter_cons. repeat case_decide; simplify_eq; simpl; lia.
  + rewrite H4, counter_sum_add. lia.
Qed.

Lemma Counter_spec ks :
NoDup (Counter ks).*1 ∧
(∀ k, k ∈ (Counter ks).*1 ↔ k ∈ ks) ∧
(Counter ks).*2 = (λ k, occurrences k ks) <$> (Counter ks).*1 ∧
sum_list (Counter ks).*2 = length ks.
Proof.
destruct (counter_loop [] ks) as (H1 & H2 & H3 & H4); [constructor|].
fold (Counter ks) in *. split_and!; [done| | |done].
- intros k. rewrite H2. csimpl. rewrite elem_of_nil. tauto.
- rewrite counter_values by done. apply list_fmap_ext.
  intros i k _. by rewrite H3.
Qed.
End counter_facts.

Lemma occurrences_pos a ks : a ∈ ks → 0 < occurrences a ks.
Proof.
  intros Hin. unfold occurrences.
  assert (a ∈ filter (λ k, k = a) ks) as Hf by (by apply list_elem_of_filter).
  destruct (filter _ ks); [by apply elem_of_nil in Hf | simpl; lia].
Qed.

Lemma occurrences_absent a ks : a ∉ ks → occurrences a ks = 0.
Proof.
  intros Hout. unfold occurrences.
  destruct (filter (λ k, k = a) ks) as [|x l] eqn:E; [done|].
  assert (x ∈ filter (λ k, k = a) ks) as [-> ?]%list_elem_of_filter; [|done].
  rewrite E. left.
Qed.

Lemma elem_of_le_sum_list (x : nat) (xs : list nat) : x ∈ xs → x ≤ sum_list xs.
Proof.
  induction 1 as [|y x xs Hin IH]; simpl; lia.
Qed.

Lemma py_max_spec (xs : list nat) :
  xs ≠ [] → ∃ m, py_max xs = Ok m ∧ m ∈ xs ∧ ∀ x, x ∈ xs → x ≤ m.
Proof.
  destruct xs as [|x xs]; [done|]. intros _. simpl.
  exists (foldl Nat.max x xs). split; [done|].
  assert (∀ a, foldl Nat.max a xs ∈ a :: xs ∧
               ∀ y, y ∈ a :: xs → y ≤ foldl Nat.max a xs) as H; [|apply H].
  induction xs as [|y xs IH]; intros a; simpl.
  - split; [left|]. intros z ->%list_elem_of_singleton. done.
  - destruct (IH (a `max` y)) as [Hin Hmax]. split.
    + apply elem_of_cons in Hin as [Heq|Hin]; [|by do 2 right].
      rewrite Heq. destruct (Nat.max_spec a y) as [[_ ->]|[_ ->]];
        [right; left | left].
    + intros z Hz.
      assert (a `max` y ≤ foldl Nat.max (a `max` y) xs) by (apply Hmax; left).
      apply elem_of_cons in Hz as [->|[->|Hz]%elem_of_cons]; [lia..|].
      apply Hmax. by right.
Qed.

(** The division [agreement_rate] performs on a report with runs: the
    largest count, which is the count of a most frequent answer, by the
    number of runs. *)
Lemma agreement_rate_eq (report : ConsistencyReport) (use_normalized : bool) :
  let ks := answer_key_of use_normalized <$> runs report in
  runs report ≠ [] →
  ∃ a, a ∈ ks ∧ (∀ b, occurrences b ks ≤ occurrences a ks) ∧
       0 < occurrences a ks ≤ length (runs report) ∧
       agreement_rate report use_normalized
       = py_truediv (Z.of_nat (occurrences a ks))
                    (Z.of_nat (length (runs report))).
Proof.
  intros ks Hruns.
  destruct (Counter_spec ks) as (Hnd & Hkeys & Hvals & Hsum).
  assert (length ks = length (runs report)) as Hlen by apply length_fmap.
  assert (length (runs report) ≠ 0) as Hn by (by destruct (runs report)).
  destruct (py_max_spec (Counter ks).*2) as (m & Hmax & Hin & Hle).
  { intros Hnil. rewrite Hnil in Hsum. simpl in Hsum. lia. }
  pose proof Hin as Hin'. rewrite Hvals in Hin'.
  apply list_elem_of_fmap in Hin' as (a & -> & Ha%Hkeys).
  exists a. split_and!.
  - done.
  - intros b. destruct (decide (b ∈ ks)) as [Hb|Hb].
    + apply Hle. rewrite Hvals. apply list_elem_of_fmap.
      exists b. split; [done | by apply Hkeys].
    + rewrite occurrences_absent by done. lia.
  - by apply occurrences_pos.
  - rewrite <- Hlen, <- Hsum. by apply elem_of_le_sum_list.
  - unfold agreement_rate. rewrite answer_distribution_eq. fold ks.
    rewrite Hsum, Hlen, decide_False by done. by rewrite Hmax.
Qed.

(** C10.  On a report without runs [agreement_rate] returns [0.0].  Otherwise
    it returns the float [c / n], where [c] is the number of runs that gave
    the modal answer (an answer no other answer occurs more often than) and
    [n] the number of runs: the double nearest to the exact quotient, which
    is within [2 ^ (-53)] of it, is at most [1], and is greater than [0] for
    every report of fewer than [2 ^ 1022] runs (a Python list is shorter
    than that; beyond it the quotient could underflow).  The function never
    raises. *)
Theorem agreement_rate_modal (report : ConsistencyReport) (use_normalized : bool) :
  let ks := answer_key_of use_normalized <$> runs report in
  let n := length (runs report) in
  (runs report = [] → agreement_rate report use_normalized = Ok 0%Q) ∧
  (runs report ≠ [] →
   ∃ answer q,
     answer ∈ ks ∧
     (∀ a, occurrences a ks ≤ occurrences answer ks) ∧
     py_truediv (Z.of_nat (occurrences answer ks)) (Z.of_nat n) = Ok q ∧
     agreement_rate report use_normalized = Ok q ∧
     ((Z.of_nat (occurrences answer ks) # Pos.of_nat n) - (1 # 2 ^ 53) <= q)%Q ∧
     (q <= (Z.of_nat (occurrences answer ks) # Pos.of_nat n) + (1 # 2 ^ 53))%Q ∧
     (q <= 1)%Q ∧
     ((Z.of_nat n < 2 ^ 1022)%Z → (0 < q)%Q)) ∧
  is_ok (agreement_rate report use_normalized).
Proof.
  intros ks n.
  assert (runs report = [] → agreement_rate report use_normalized = Ok 0%Q) as H0.
  { intros Hruns. unfold agreement_rate. rewrite answer_distribution_eq.
    destruct (Counter_spec ks) as (_ & _ & _ & Hsum). fold ks.
    rewrite Hsum. unfold ks. by rewrite Hruns. }
  assert (runs report ≠ [] →
          ∃ answer q,
            answer ∈ ks ∧
            (∀ a, occurrences a ks ≤ occurrences answer ks) ∧
            py_truediv (Z.of_nat (occurrences answer ks)) (Z.of_nat n) = Ok q ∧
            agreement_rate report use_normalized = Ok q ∧
            ((Z.of_nat (occurrences answer ks) # Pos.of_nat n) - (1 # 2 ^ 53)
             <= q)%Q ∧
            (q <= (Z.of_nat (occurrences answer ks) # Pos.of_nat n)
                  + (1 # 2 ^ 53))%Q ∧
            (q <= 1)%Q ∧
            ((Z.of_nat n < 2 ^ 1022)%Z → (0 < q)%Q)) as H1.
  { intros Hruns.
    destruct (agreement_rate_eq report use_normalized Hruns)
      as (answer & Hin & Hmax & Hcount & Hrate).
    destruct (py_truediv_fraction _ _ Hcount)
      as (q & Hq & Hlo & Hhi & Hle & Hpos & _).
    exists answer, q. fold ks n in Hrate, Hq, Hlo, Hhi, Hpos.
    split_and!; try done. by rewrite Hrate. }
  split_and!; [done..|].
  destruct (runs report) as [|r rs] eqn:E.
  - eexists. by apply H0.
  - destruct H1 as (answer & q & _ & _ & _ & -> & _); [done|]. by eexists.
Qed.

(** ** Loops that may raise *)

(** A loop of checks that all pass. *)
Lemma foldM_checks_pass {B} (f : unit → B → Result unit) (l : list B) :
  (∀ x, x ∈ l → f tt x = Ok tt) → foldM f tt l = Ok tt.
Proof.
  induction l as [|x l IH]; intros Hall; simpl; [done|].
  rewrite Hall by left. simpl. apply IH. intros y Hy. apply Hall. by right.
Qed.

(** A loop of checks that can only raise [e], one of which does. *)
Lemma foldM_checks_fail {B} (f : unit → B → Result unit) (e : Error) (l : list B) :
  (∀ x, x ∈ l → f tt x = Ok tt ∨ f tt x = Err e) →
  (∃ x, x ∈ l ∧ f tt x = Err e) →
  foldM f tt l = Err e.
Proof.
  induction l as [|x l IH]; intros Hall (y & Hy & Hfail).
  - by apply elem_of_nil in Hy.
  - simpl. destruct (Hall x) as [Hok|Herr]; [left| |by rewrite Herr].
    rewrite Hok. simpl. apply IH.
    + intros z Hz. apply Hall. by right.
    + apply elem_of_cons in Hy as [->|Hy]; [congruence | eauto].
Qed.

(** A loop that stores one value per key into a dictionary, over distinct
    keys the dictionary does not hold yet: the entries are appended in the
    order of the loop. *)
Lemma foldM_dict_set {V} (f : Z → Result V) (acc : list (Z * V)) (l : list Z) :
  NoDup l → (∀ k, k ∈ l → k ∉ keys acc) → (∀ k, k ∈ l → is_ok (f k)) →
  ∃ vs, foldM (λ d k, do v <- f k; Ok (dict_set d k v)) acc l = Ok (acc ++ vs) ∧
        keys vs = l ∧ ∀ k v, (k, v) ∈ vs → f k = Ok v.
Proof.
  intros Hnd. revert acc. induction Hnd as [|k l Hk Hnd IH]; intros acc Hfresh Hok.
  - exists []. rewrite app_nil_r. split_and!; [done..|].
    by intros k v ?%elem_of_nil.
  - destruct (Hok k) as [v Hv]; [left|].
    assert (dict_set acc k v = acc ++ [(k, v)]) as Hset.
    { assert (k ∉ keys acc) as Hn by (apply Hfresh; left). clear -Hn.
      unfold keys in Hn. induction acc as [|[k' v'] acc IH]; csimpl in *; [done|].
      apply not_elem_of_cons in Hn as [? ?].
      rewrite decide_False by done. f_equal. by apply IH. }
    destruct (IH (acc ++ [(k, v)])) as (vs & Hvs & Hkeys & Hall).
    + intros k' Hk'. unfold keys. rewrite fmap_app, elem_of_app. csimpl.
      rewrite list_elem_of_singleton. intros [Hin| ->]; [|done].
      eapply Hfresh; [by right | done].
    + intros k' Hk'. apply Hok. by right.
    + exists ((k, v) :: vs). split_and!.
      * simpl. rewrite Hv. simpl. rewrite Hset, Hvs.
        by rewrite <- app_assoc.
      * unfold keys in *. csimpl. by rewrite Hkeys.
      * intros k' v' [[= -> ->]|Hin]%elem_of_cons; [done | by apply Hall].
Qed.

(** ** [apply_collapse_plan]: the failures *)

Lemma check_cut_cases toq c :
  (check_cut toq tt c = Ok tt ∧
   ∃ n p, dict_get (nodes toq) c = Some n ∧ parent n = Some p) ∨
  (check_cut toq tt c = Err InvalidCut ∧
   (c ∉ keys (nodes toq) ∨ ∃ n, dict_get (nodes toq) c = Some n ∧ parent n = None)).
Proof.
  unfold check_cut. destruct (dict_get (nodes toq) c) as [n|] eqn:Hn.
  - destruct (parent n) as [p|] eqn:Hp; [left | right]; eauto.
  - right. split; [done|]. left. by apply dict_get_None.
Qed.

Lemma check_question_cases (cq : gmap Z string) r :
  (check_question cq tt r = Ok tt ∧ is_Some (cq !! r)) ∨
  (check_question cq tt r = Err MissingCollapsedQuestion ∧ cq !! r = None).
Proof. unfold check_question. destruct (cq !! r); [left | right]; eauto. Qed.

Lemma apply_collapse_plan_invalid_cut toq plan cq c :
  validate toq = Ok tt → c ∈ cut_edges plan → invalid_cut toq c →
  apply_collapse_plan toq plan cq = Err InvalidCut.
Proof.
  intros Hval Hc Hbad. unfold apply_collapse_plan. rewrite Hval. simpl.
  case_decide as Hroot; [done|].
  rewrite (foldM_checks_fail _ InvalidCut); [done| |].
  - intros x _. destruct (check_cut_cases toq x) as [[-> _]|[-> _]]; auto.
  - exists c. split; [by apply elem_of_elements, elem_of_list_to_set|].
    destruct Hbad as [->|Hbad].
    + exfalso. by apply Hroot, elem_of_list_to_set.
    + destruct (check_cut_cases toq c) as [[_ (n & p & Hn & Hp)]|[-> _]]; [|done].
      destruct Hbad as [Hout|(n' & Hn' & Hp')]; [|congruence].
      apply dict_get_None in Hout. congruence.
Qed.

Lemma apply_collapse_plan_cuts_pass toq plan :
  (∀ c, c ∈ cut_edges plan → ¬ invalid_cut toq c) →
  (root_id toq ∉ list_to_set (C:=gset Z) (cut_edges plan)) ∧
  foldM (check_cut toq) tt (elements (list_to_set (C:=gset Z) (cut_edges plan)))
  = Ok tt.
Proof.
  intros Hgood. split.
  - intros Hin%elem_of_list_to_set. apply (Hgood _ Hin). by left.
  - apply foldM_checks_pass.
    intros c Hc%elem_of_elements%elem_of_list_to_set.
    destruct (check_cut_cases toq c) as [[-> _]|[_ Hbad]]; [done|].
    exfalso. apply (Hgood _ Hc). by right.
Qed.

Lemma apply_collapse_plan_missing_question toq plan cq r :
  validate toq = Ok tt →
  (∀ c, c ∈ cut_edges plan → ¬ invalid_cut toq c) →
  r ∈ component_roots toq plan → cq !! r = None →
  apply_collapse_plan toq plan cq = Err MissingCollapsedQuestion.
Proof.
  intros Hval Hgood Hr Hmiss. unfold apply_collapse_plan. rewrite Hval. simpl.
  destruct (apply_collapse_plan_cuts_pass toq plan Hgood) as [Hroot ->].
  rewrite decide_False by done. simpl.
  rewrite (foldM_checks_fail _ MissingCollapsedQuestion); [done| |].
  - intros x _. destruct (check_question_cases cq x) as [[-> _]|[-> _]]; auto.
  - exists r. split; [done|].
    destruct (check_question_cases cq r) as [[_ [? ?]]|[-> _]]; [congruence|done].
Qed.

(** C4 (as amended).  On a valid tree [apply_collapse_plan] raises
    [InvalidCut] when a cut edge is the root, is not a node of the tree or has
    no parent, and raises [MissingCollapsedQuestion] when the cut edges pass
    that check and some component root has no collapsed question.  On an
    invalid tree it fails in [validate] first, with the error of [validate].
    Whatever the tree, no result is returned in either failure case. *)
Theorem apply_collapse_plan_failures (toq : ToQ) (plan : CollapsePlan)
    (cq : gmap Z string) :
  (validate toq = Ok tt →
   (∃ c, c ∈ cut_edges plan ∧ invalid_cut toq c) →
   apply_collapse_plan toq plan cq = Err InvalidCut) ∧
  (validate toq = Ok tt →
   (∀ c, c ∈ cut_edges plan → ¬ invalid_cut toq c) →
   (∃ r, r ∈ component_roots toq plan ∧ cq !! r = None) →
   apply_collapse_plan toq plan cq = Err MissingCollapsedQuestion) ∧
  (∀ e, validate toq = Err e → apply_collapse_plan toq plan cq = Err e) ∧
  ((∃ c, c ∈ cut_edges plan ∧ invalid_cut toq c) ∨
   (∃ r, r ∈ component_roots toq plan ∧ cq !! r = None) →
   ¬ is_ok (apply_collapse_plan toq plan cq)).
Proof.
  assert (∀ c, Decision (invalid_cut toq c)) as Hdec.
  { intros c. unfold invalid_cut.
    destruct (dict_get (nodes toq) c) as [n|] eqn:Hn.
    - destruct (parent n) as [p|] eqn:Hp.
      + destruct (decide (c = root_id toq)); [left; by left|].
        right. intros [?|[Hout|(n' & Hn' & Hp')]]; [done| |congruence].
        apply dict_get_None in Hout. congruence.
      + left. right; right. eauto.
    - left. right; left. by apply dict_get_None. }
  split_and!.
  - intros Hval (c & Hc & Hbad). by eapply apply_collapse_plan_invalid_cut.
  - intros Hval Hgood (r & Hr & Hmiss).
    by eapply apply_collapse_plan_missing_question.
  - intros e Hval. unfold apply_collapse_plan. by rewrite Hval.
  - intros Hfail [res Hres].
    destruct (validate toq) as [[]|e] eqn:Hval;
      [|unfold apply_collapse_plan in Hres; by rewrite Hval in Hres].
    destruct (decide (Exists (invalid_cut toq) (cut_edges plan))) as [Hex|Hnex].
    + apply Exists_exists in Hex as (c & Hc & Hbad).
      by rewrite (apply_collapse_plan_invalid_cut toq plan cq c) in Hres.
    + destruct Hfail as [(c & Hc & Hbad)|(r & Hr & Hmiss)].
      * apply Hnex, Exists_exists. eauto.
      * rewrite (apply_collapse_plan_missing_question toq plan cq r) in Hres;
          [done..| |done|done].
        intros c Hc Hbad. apply Hnex, Exists_exists. eauto.
Qed.

Lemma foldM_ext {A B} (f g : A → B → Result A) (a : A) (l : list B) :
  (∀ a x, f a x = g a x) → foldM f a l = foldM g a l.
Proof.
  intros Hfg. revert a. induction l as [|x l IH]; intros a; simpl; [done|].
  rewrite Hfg. destruct (g a x); simpl; [apply IH | done].
Qed.

(** ** Depth, and trees that [validate] accepts *)

Lemma depth_loop_rooted t k d fuel :
  rooted t k d → d ≤ fuel → depth_loop t fuel k = d.
Proof.
  intros Hr. revert fuel. induction Hr as [|k p d Hne Hp Hr IH]; intros fuel Hle.
  - destruct fuel; simpl; by rewrite decide_True.
  - destruct fuel as [|f]; [lia|]. simpl.
    rewrite decide_False by done. rewrite Hp. f_equal. apply IH. lia.
Qed.

Lemma valid_depth t k :
  validate t = Ok tt → k ∈ keys (nodes t) → rooted t k (depth t k).
Proof.
  intros Hval Hk. destruct (valid_rooted t Hval k Hk) as (d & Hd & Hr).
  unfold depth. by rewrite (depth_loop_rooted t k d).
Qed.

Lemma depth_parent t k p :
  validate t = Ok tt → parent_of t k = Some p → depth t k = S (depth t p).
Proof.
  intros Hval Hp.
  pose proof (valid_depth t k Hval (parent_of_key t k p Hp)) as Hk.
  pose proof (valid_depth t p Hval (valid_parent_key t Hval k p Hp)) as Hpd.
  inversion Hk as [Heq|k' p' d Hne Hp' Hr Heq1 Heq2].
  - rewrite <- Heq, (valid_parent_of_root t Hval) in Hp. done.
  - f_equal. eapply rooted_det; [|done]. congruence.
Qed.

(** In a tree where a rank drops along every parent pointer, an upward walk
    that has not met the root within [fuel] steps has been through
    [fuel + 1] different nodes. *)
Lemma unreached_walk (t : ToQ) (rank : Z → nat) :
  (∀ k n, (k, n) ∈ nodes t → k ≠ root_id t →
          ∃ p, parent n = Some p ∧ p ∈ keys (nodes t) ∧ rank p < rank k) →
  ∀ fuel k, k ∈ keys (nodes t) → reaches_root t fuel k = false →
  ∃ l, length l = S fuel ∧ NoDup l ∧
       ∀ x, x ∈ l → x ∈ keys (nodes t) ∧ rank x ≤ rank k.
Proof.
  intros Hstep. induction fuel as [|f IH]; intros k Hk Hfalse; simpl in Hfalse.
  - exists [k]. split_and!; [done | apply NoDup_singleton|].
    intros x ->%list_elem_of_singleton. done.
  - case_decide as Hne; [done|].
    apply dict_get_is_Some in Hk as Hn. destruct Hn as [n Hn].
    destruct (Hstep k n) as (p & Hp & Hpk & Hrank);
      [by apply dict_get_elem_of | done |].
    unfold parent_of in Hfalse. rewrite Hn in Hfalse. simpl in Hfalse.
    rewrite Hp in Hfalse.
    destruct (IH p Hpk Hfalse) as (l & Hlen & Hnd & Hl).
    exists (k :: l). split_and!.
    + simpl. by rewrite Hlen.
    + constructor; [|done]. intros [_ ?]%Hl. lia.
    + intros x [->|[? ?]%Hl]%elem_of_cons; [done|]. split; [done | lia].
Qed.

(** A mapping with a parentless root in which every other node has a parent
    of smaller rank among the nodes passes [validate]. *)
Lemma validate_by_rank (t : ToQ) (rank : Z → nat) :
  (∃ rn, dict_get (nodes t) (root_id t) = Some rn ∧ parent rn = None) →
  (∀ k n, (k, n) ∈ nodes t → k ≠ root_id t →
          ∃ p, parent n = Some p ∧ p ∈ keys (nodes t) ∧ rank p < rank k) →
  validate t = Ok tt.
Proof.
  intros (rn & Hrn & Hrp) Hstep. unfold validate. rewrite Hrn, Hrp.
  destruct (existsb (dangling t) (nodes t)) eqn:Hd.
  { exfalso. apply existsb_exists in Hd as ([k n] & Hin%list_elem_of_In & Hd).
    unfold dangling in Hd. simpl in Hd.
    apply andb_true_iff in Hd as [Hne%bool_decide_eq_true Hd].
    destruct (Hstep k n Hin Hne) as (p & Hp & Hpk & _). rewrite Hp in Hd.
    by apply bool_decide_eq_true in Hd. }
  destruct (existsb (second_root t) (nodes t)) eqn:Hs.
  { exfalso. apply existsb_exists in Hs as ([k n] & Hin%list_elem_of_In & Hs).
    unfold second_root in Hs. simpl in Hs.
    apply andb_true_iff in Hs as [Hne%bool_decide_eq_true Hs].
    destruct (Hstep k n Hin Hne) as (p & Hp & _). by rewrite Hp in Hs. }
  assert (forallb (reaches_root t (length (nodes t))) (keys (nodes t)) = true)
    as ->; [|done].
  apply forallb_forall. intros k Hk%list_elem_of_In.
  destruct (reaches_root t (length (nodes t)) k) eqn:Hreach; [done|].
  exfalso.
  destruct (unreached_walk t rank Hstep _ k Hk Hreach) as (l & Hlen & Hnd & Hl).
  assert (l ⊆+ keys (nodes t)) as Hsub.
  { apply NoDup_submseteq; [done|]. intros x Hx. by apply Hl. }
  apply submseteq_length in Hsub. unfold keys in Hsub.
  rewrite length_fmap in Hsub. lia.
Qed.

(** ** [apply_collapse_plan]: the quotient *)

Lemma stops_at_stop t cut k r :
  stops_at t cut k r →
  ∃ n, dict_get (nodes t) r = Some n ∧ (parent n = None ∨ r ∈ cut).
Proof. induction 1; eauto. Qed.

Lemma stops_at_depth t cut k r :
  validate t = Ok tt → stops_at t cut k r → depth t r ≤ depth t k.
Proof.
  intros Hval. induction 1 as [|cur n p r Hn Hp Hcut Hs IH]; [done|].
  rewrite (depth_parent t cur p Hval); [lia|].
  unfold parent_of. by rewrite Hn.
Qed.

Lemma component_root_result t cut k :
  validate t = Ok tt → k ∈ keys (nodes t) →
  ∃ r, _component_root t k cut = Ok r ∧ stops_at t cut k r.
Proof.
  intros Hval Hk. destruct (valid_rooted t Hval k Hk) as (d & Hd & Hr).
  destruct (component_root_loop_rooted t cut k d Hval Hr) as (r & Hs & Hloop).
  exists r. split; [apply Hloop; lia | done].
Qed.

Lemma quotient_node_eq toq cut cq d r :
  quotient_node toq cut cq d r
  = do v <- quotient_value toq cut cq r; Ok (dict_set d r v).
Proof.
  unfold quotient_node, quotient_value.
  destruct (if decide (r = root_id toq) then _ else _); simpl; [|done].
  by destruct (cq !! r).
Qed.

(** A component root is the root of the tree or a cut edge; with cut edges
    that are nodes with a parent, its quotient node has no parent (the root)
    or a parent that is a component root strictly nearer to the root. *)
Lemma quotient_value_spec t plan cq r :
  validate t = Ok tt →
  (∀ c, c ∈ cut_edges plan → c ∈ keys (nodes t) ∧ c ≠ root_id t) →
  r ∈ component_roots t plan →
  ∀ txt, cq !! r = Some txt →
  ∃ np, quotient_value t (list_to_set (cut_edges plan)) cq r
        = Ok (mkToQNode r txt np) ∧
        if decide (r = root_id t) then np = None
        else ∃ c, np = Some c ∧ c ∈ component_roots t plan ∧
                  depth t c < depth t r.
Proof.
  intros Hval Hcuts Hr txt Htxt. unfold quotient_value. rewrite Htxt.
  destruct (decide (r = root_id t)) as [->|Hne]; simpl; [by exists None|].
  apply elem_of_component_roots in Hr as [?|Hr]; [done|].
  destruct (Hcuts r Hr) as [Hk _].
  destruct (valid_parent t Hval r Hk Hne) as (p & Hp & Hpk).
  unfold parent_of in Hp. unfold subscript.
  destruct (dict_get (nodes t) r) as [n|] eqn:Hn; [simpl in Hp|done].
  simpl. rewrite Hp.
  destruct (component_root_result t (list_to_set (cut_edges plan)) p Hval Hpk)
    as (c & -> & Hs). simpl.
  exists (Some c). split; [done|]. exists c. split_and!; [done| |].
  - apply elem_of_component_roots.
    destruct (stops_at_stop _ _ _ _ Hs) as (n' & Hn' & [Hnone|Hin]).
    + left. apply (valid_no_parent t Hval).
      * apply dict_get_is_Some. eauto.
      * unfold parent_of. by rewrite Hn'.
    + right. by apply elem_of_list_to_set in Hin.
  - pose proof (stops_at_depth _ _ _ _ Hval Hs).
    rewrite (depth_parent t r p Hval); [lia|].
    unfold parent_of. by rewrite Hn.
Qed.

Lemma elem_of_keys {V} (d : list (Z * V)) (k : Z) :
  k ∈ keys d ↔ ∃ v, (k, v) ∈ d.
Proof.
  unfold keys. rewrite list_elem_of_fmap. split.
  - intros ([k' v] & -> & Hin). by exists v.
  - intros (v & Hin). by exists (k, v).
Qed.

Lemma good_cut_not_invalid t c :
  validate t = Ok tt → c ∈ keys (nodes t) → c ≠ root_id t → ¬ invalid_cut t c.
Proof.
  intros Hval Hk Hne [?|[?|(n & Hn & Hp)]]; [done..|].
  destruct (valid_item t Hval c n) as (p & Hp' & _);
    [by apply dict_get_elem_of | done | congruence].
Qed.

(** With cut edges that are nodes other than the root and a collapsed
    question for every component root, [apply_collapse_plan] gets through all
    its checks, the final validation included. *)
Lemma apply_collapse_plan_result t plan cq :
  valid_toq t →
  (∀ c, c ∈ cut_edges plan → c ∈ keys (nodes t) ∧ c ≠ root_id t) →
  (∀ r, r ∈ component_roots t plan → is_Some (cq !! r)) →
  ∃ vs,
    apply_collapse_plan t plan cq
    = Ok (mkCollapsedToQ (mkToQ vs (root_id t)) plan
            (list_to_set (keys (nodes t)) ∖ list_to_set (component_roots t plan))
            cq (component_roots t plan) None) ∧
    keys vs = component_roots t plan ∧
    (∀ k v, (k, v) ∈ vs →
            ∃ txt np, cq !! k = Some txt ∧ v = mkToQNode k txt np ∧
                      if decide (k = root_id t) then np = None
                      else ∃ c, np = Some c ∧ c ∈ component_roots t plan ∧
                                depth t c < depth t k) ∧
    validate (mkToQ vs (root_id t)) = Ok tt.
Proof.
  intros [Hwf Hval] Hcuts Hcq.
  set (cut := list_to_set (C:=gset Z) (cut_edges plan)).
  destruct (foldM_dict_set (quotient_value t cut cq) [] (component_roots t plan))
    as (vs & Hvs & Hkeys & Hall).
  { apply NoDup_component_roots. }
  { intros k _. apply not_elem_of_nil. }
  { intros k Hk. destruct (Hcq k Hk) as [txt Htxt].
    destruct (quotient_value_spec t plan cq k Hval Hcuts Hk txt Htxt)
      as (np & Hnp & _). by eexists. }
  simpl in Hvs.
  assert (∀ k v, (k, v) ∈ vs →
            ∃ txt np, cq !! k = Some txt ∧ v = mkToQNode k txt np ∧
                      if decide (k = root_id t) then np = None
                      else ∃ c, np = Some c ∧ c ∈ component_roots t plan ∧
                                depth t c < depth t k) as Hnodes.
  { intros k v Hin.
    assert (k ∈ component_roots t plan) as Hk.
    { rewrite <- Hkeys. apply elem_of_keys. eauto. }
    destruct (Hcq k Hk) as [txt Htxt].
    destruct (quotient_value_spec t plan cq k Hval Hcuts Hk txt Htxt)
      as (np & Hnp & Hspec).
    exists txt, np. split_and!; [done| |done].
    apply Hall in Hin. fold cut in Hnp. congruence. }
  assert (dict_wf vs) as Hwfvs.
  { unfold dict_wf. rewrite Hkeys. apply NoDup_component_roots. }
  assert (validate (mkToQ vs (root_id t)) = Ok tt) as Hvalid.
  { apply (validate_by_rank _ (depth t)); simpl.
    - assert (root_id t ∈ keys vs) as [v Hv]%elem_of_keys.
      { rewrite Hkeys. apply elem_of_component_roots. by left. }
      exists v. split; [by apply dict_get_Some|].
      destruct (Hnodes _ _ Hv) as (txt & np & _ & -> & Hnp).
      by rewrite decide_True in Hnp.
    - intros k n Hin Hne.
      destruct (Hnodes _ _ Hin) as (txt & np & _ & -> & Hnp).
      rewrite decide_False in Hnp by done.
      destruct Hnp as (c & -> & Hc & Hdepth). exists c. simpl.
      split_and!; [done| |done]. by rewrite Hkeys. }
  exists vs. split_and!; [|done..].
  unfold apply_collapse_plan. rewrite Hval. simpl.
  destruct (apply_collapse_plan_cuts_pass t plan) as [Hroot ->].
  { intros c [? ?]%Hcuts. by apply good_cut_not_invalid. }
  rewrite decide_False by done. simpl.
  rewrite foldM_checks_pass; simpl.
  2:{ intros r Hr%Hcq.
      destruct (check_question_cases cq r) as [[-> _]|[_ Hnone]]; [done|].
      destruct Hr. congruence. }
  rewrite (foldM_ext _ (λ d k, do v <- quotient_value t cut cq k; Ok (dict_set d k v)))
    by apply quotient_node_eq.
  fold cut. rewrite Hvs. simpl. by rewrite Hvalid.
Qed.

(** C2.  For a valid tree, a plan whose cut edges are nodes of the tree other
    than the root, and a collapsed question for every component root,
    [apply_collapse_plan] returns a quotient that has one node per component
    root, is a valid tree, hangs every node but the root under a component
    root, and whose removed nodes are the original nodes that are not
    component roots. *)
Theorem apply_collapse_plan_quotient (t : ToQ) (plan : CollapsePlan)
    (cq : gmap Z string) :
  valid_toq t →
  (∀ c, c ∈ cut_edges plan → c ∈ keys (nodes t) ∧ c ≠ root_id t) →
  (∀ r, r ∈ component_roots t plan → is_Some (cq !! r)) →
  ∃ res,
    apply_collapse_plan t plan cq = Ok res ∧
    collapsed_component_roots res = component_roots t plan ∧
    keys (nodes (collapsed_toq res)) = component_roots t plan ∧
    length (nodes (collapsed_toq res)) = length (component_roots t plan) ∧
    valid_toq (collapsed_toq res) ∧
    root_id (collapsed_toq res) = root_id t ∧
    (∀ k n, (k, n) ∈ nodes (collapsed_toq res) →
            k ≠ root_id (collapsed_toq res) →
            ∃ p, parent n = Some p ∧ p ∈ component_roots t plan) ∧
    removed_nodes res ∩ list_to_set (component_roots t plan) = ∅ ∧
    removed_nodes res ∪ list_to_set (component_roots t plan)
    = list_to_set (keys (nodes t)).
Proof.
  intros Hvalid Hcuts Hcq.
  destruct (apply_collapse_plan_result t plan cq Hvalid Hcuts Hcq)
    as (vs & -> & Hkeys & Hnodes & Hval').
  destruct Hvalid as [Hwf Hval].
  eexists. split; [done|]. simpl. split_and!.
  - done.
  - done.
  - rewrite <- Hkeys. unfold keys. by rewrite length_fmap.
  - split; [|done]. unfold dict_wf. simpl. rewrite Hkeys.
    apply NoDup_component_roots.
  - done.
  - intros k n Hin Hne.
    destruct (Hnodes _ _ Hin) as (txt & np & _ & -> & Hnp).
    rewrite decide_False in Hnp by done.
    destruct Hnp as (c & -> & Hc & _). by exists c.
  - set_solver.
  - apply set_eq. intros x.
    rewrite elem_of_union, elem_of_difference, !elem_of_list_to_set.
    split.
    + intros [[? _]|[->|Hc]%elem_of_component_roots]; [done| |].
      * by apply valid_root_key.
      * by apply Hcuts.
    + intros Hx.
      destruct (decide (x ∈ component_roots t plan)); [by right | by left].
Qed.

Lemma component_roots_empty t : component_roots t (mkCollapsePlan []) = [root_id t].
Proof.
  unfold component_roots. simpl.
  rewrite (left_id_L ∅ (∪)), elements_singleton. done.
Qed.

(** C9.  On a valid tree, the empty plan together with a mapping that gives
    the root the text [txt] yields a quotient whose only node is the root,
    without parent and with text [txt]; the removed nodes are all the other
    node ids. *)
Theorem apply_empty_plan (t : ToQ) (cq : gmap Z string) (txt : string) :
  valid_toq t → cq !! root_id t = Some txt →
  ∃ res,
    apply_collapse_plan t (mkCollapsePlan []) cq = Ok res ∧
    nodes (collapsed_toq res) = [(root_id t, mkToQNode (root_id t) txt None)] ∧
    root_id (collapsed_toq res) = root_id t ∧
    ∀ x, x ∈ removed_nodes res ↔ x ∈ keys (nodes t) ∧ x ≠ root_id t.
Proof.
  intros Hvalid Htxt.
  destruct (apply_collapse_plan_result t (mkCollapsePlan []) cq Hvalid)
    as (vs & -> & Hkeys & Hnodes & _).
  { by intros c ?%elem_of_nil. }
  { rewrite component_roots_empty. intros r ->%list_elem_of_singleton. eauto. }
  rewrite component_roots_empty in *.
  eexists. split; [done|]. simpl. split_and!.
  - destruct vs as [|[k v] [|? ?]]; try done. unfold keys in Hkeys.
    injection Hkeys as ->.
    destruct (Hnodes (root_id t) v) as (txt' & np & Htxt' & -> & Hnp); [left|].
    rewrite decide_True in Hnp by done. congruence.
  - done.
  - intros x. rewrite elem_of_difference, elem_of_list_to_set.
    rewrite elem_of_union, elem_of_singleton, elem_of_empty. tauto.
Qed.

(** ** [extract_open_toq]: the traversal *)

Lemma parent_of_elem_of t v u :
  dict_wf (nodes t) →
  parent_of t v = Some u ↔ ∃ n, (v, n) ∈ nodes t ∧ parent n = Some u.
Proof.
  intros Hwf. unfold parent_of. split.
  - destruct (dict_get (nodes t) v) as [n|] eqn:Hn; [|done].
    simpl. intros Hp. exists n. split; [by apply dict_get_elem_of | done].
  - intros (n & Hin & Hp). by rewrite (dict_get_Some _ _ n).
Qed.

Lemma elem_of_children_get t u v :
  dict_wf (nodes t) → v ∈ children_get t u ↔ parent_of t v = Some u.
Proof.
  intros Hwf. unfold children_get.
  rewrite elem_of_sorted, elem_of_keys, parent_of_elem_of by done.
  split; intros (n & Hn); exists n; apply list_elem_of_filter in Hn || 
    apply list_elem_of_filter; simpl in *; tauto.
Qed.

Lemma length_children_get t u : length (children_get t u) ≤ length (nodes t).
Proof.
  unfold children_get, keys. rewrite length_sorted, length_fmap.
  apply length_filter.
Qed.

(** The loop over the children of one node. *)
Lemma visit_children cut st vs :
  let st' := foldl (visit_child cut) st vs in
  internal st' = internal st ∧
  (∀ x, x ∈ stack st' ↔ x ∈ stack st ∨ (x ∈ vs ∧ x ∉ cut)) ∧
  (∀ x, x ∈ frontier st' ↔ x ∈ frontier st ∨ (x ∈ vs ∧ x ∈ cut)) ∧
  length (stack st') ≤ length (stack st) + length vs.
Proof.
  revert st. induction vs as [|v vs IH]; intros st; simpl.
  - split_and!; [done| | |lia]; intros x; rewrite elem_of_nil; tauto.
  - destruct (IH (visit_child cut st v)) as (H1 & H2 & H3 & H4).
    unfold visit_child in *. destruct (decide (v ∈ cut)) as [Hin|Hout];
      simpl in *; (split_and!; [done| | |lia]); intros x.
    + rewrite H2, elem_of_cons. naive_solver.
    + rewrite H3, elem_of_union, elem_of_singleton, elem_of_cons. naive_solver.
    + rewrite H2, !elem_of_cons. naive_solver.
    + rewrite H3, elem_of_cons. naive_solver.
Qed.

Lemma unvisited_mark t (seen : gset Z) u :
  u ∈ keys (nodes t) → u ∉ seen →
  unvisited t (seen ∪ {[ u ]}) < unvisited t seen.
Proof.
  unfold unvisited. generalize (keys (nodes t)) as l.
  intros l Hu Hseen.
  assert (∀ l : list Z, length (filter (λ k, k ∉ seen ∪ {[ u ]}) l)
                        ≤ length (filter (λ k, k ∉ seen) l)) as Hle.
  { clear. induction l as [|x l IH]; [done|].
    rewrite !filter_cons. repeat case_decide; simpl; try lia.
    exfalso. set_solver. }
  induction l as [|x l IH]; [by apply elem_of_nil in Hu|].
  rewrite !filter_cons. apply elem_of_cons in Hu as [<-|Hu].
  - rewrite decide_False by set_solver. rewrite decide_True by done.
    simpl. specialize (Hle l). lia.
  - specialize (IH Hu). repeat case_decide; simpl; try lia.
    exfalso. set_solver.
Qed.

Lemma dfs_inv_skip t cut root u rest seen front :
  u ∈ seen →
  dfs_inv t cut root (mkDfs (u :: rest) seen front) →
  dfs_inv t cut root (mkDfs rest seen front).
Proof.
  intros Hu [H1 H2 H3 H4 H5]. simpl in *. split; simpl.
  - intros x Hx. apply H1. by right.
  - done.
  - intros u' v Hu' Hp. specialize (H3 u' v Hu' Hp).
    case_decide; [done|]. destruct H3 as [?|[->|?]%elem_of_cons]; auto.
  - done.
  - destruct H5 as [?|[->|?]%elem_of_cons]; auto.
Qed.

Lemma dfs_inv_visit t cut root u rest seen front :
  dict_wf (nodes t) → u ∉ seen →
  dfs_inv t cut root (mkDfs (u :: rest) seen front) →
  dfs_inv t cut root
    (foldl (visit_child cut) (mkDfs rest (seen ∪ {[ u ]}) front)
           (children_get t u)).
Proof.
  intros Hwf Hu [H1 H2 H3 H4 H5]. simpl in *.
  destruct (visit_children cut (mkDfs rest (seen ∪ {[ u ]}) front)
              (children_get t u)) as (Ei & Es & Ef & _).
  simpl in *. destruct (H1 u) as [Hru Hku]; [left|].
  split.
  - intros x [Hx|[Hx Hcut]]%Es.
    + apply H1. by right.
    + apply elem_of_children_get in Hx; [|done]. split.
      * by eapply reach_child.
      * by eapply parent_of_key.
  - rewrite Ei. intros x [Hx| ->%elem_of_singleton]%elem_of_union; auto.
  - rewrite Ei. intros u' v Hu' Hp.
    apply elem_of_union in Hu' as [Hu'| ->%elem_of_singleton].
    + specialize (H3 u' v Hu' Hp). case_decide.
      * apply Ef. by left.
      * rewrite elem_of_union, elem_of_singleton, Es.
        destruct H3 as [?|[->|?]%elem_of_cons]; auto.
    + assert (v ∈ children_get t u) by (by apply elem_of_children_get).
      case_decide.
      * apply Ef. by right.
      * right. apply Es. by right.
  - rewrite Ei. intros v [Hv|[Hv Hcut]]%Ef.
    + destruct (H4 v Hv) as (? & u' & ? & ?). split; [done|].
      exists u'. split; [set_solver | done].
    + split; [done|]. exists u. split; [set_solver|].
      by apply elem_of_children_get.
  - rewrite Ei. destruct H5 as [?|[->|?]%elem_of_cons].
    + left. set_solver.
    + left. set_solver.
    + right. apply Es. by left.
Qed.

(** The traversal terminates within its potential, with the stack empty. *)
Lemma dfs_loop_terminates t cut root fuel st :
  dict_wf (nodes t) → dfs_inv t cut root st → dfs_potential t st ≤ fuel →
  ∃ st', dfs_loop t cut fuel st = Ok st' ∧ stack st' = [] ∧
         dfs_inv t cut root st'.
Proof.
  intros Hwf. revert st.
  induction fuel as [|f IH]; intros [stk seen front] Hinv Hpot;
    unfold dfs_potential in Hpot; simpl in Hpot.
  - destruct stk; [|simpl in Hpot; lia]. exists (mkDfs [] seen front). done.
  - destruct stk as [|u rest]; [by exists (mkDfs [] seen front)|].
    simpl in *. destruct (decide (u ∈ seen)) as [Hu|Hu].
    + apply IH; [by eapply dfs_inv_skip|].
      unfold dfs_potential. simpl. lia.
    + apply IH; [by apply dfs_inv_visit|].
      destruct (visit_children cut (mkDfs rest (seen ∪ {[ u ]}) front)
                  (children_get t u)) as (Ei & _ & _ & Hlen).
      simpl in *. unfold dfs_potential. rewrite Ei.
      pose proof (length_children_get t u).
      assert (unvisited t (seen ∪ {[ u ]}) < unvisited t seen) as Hlt.
      { apply unvisited_mark; [|done].
        destruct Hinv as [H1 _ _ _ _]. apply (H1 u). left. }
      nia.
Qed.

Lemma dfs_inv_init t cut root :
  root ∈ keys (nodes t) → dfs_inv t cut root (mkDfs [root] ∅ ∅).
Proof.
  intros Hroot. split; simpl.
  - intros x ->%list_elem_of_singleton. split; [constructor | done].
  - intros x ?%elem_of_empty. done.
  - intros u v ?%elem_of_empty. done.
  - intros v ?%elem_of_empty. done.
  - right. left.
Qed.

(** The traversal of [extract_open_toq] marks exactly the nodes reached from
    [root], and records exactly their children in [cut]. *)
Lemma dfs_result t cut root :
  dict_wf (nodes t) → root ∈ keys (nodes t) →
  ∃ st, dfs_loop t cut (dfs_fuel t) (mkDfs [root] ∅ ∅) = Ok st ∧
        (∀ x, x ∈ internal st ↔ reach t cut root x) ∧
        (∀ x, x ∈ internal st → x ∈ keys (nodes t)) ∧
        (∀ v, v ∈ frontier st ↔
              v ∈ cut ∧ ∃ u, u ∈ internal st ∧ parent_of t v = Some u).
Proof.
  intros Hwf Hroot.
  destruct (dfs_loop_terminates t cut root (dfs_fuel t) (mkDfs [root] ∅ ∅) Hwf)
    as (st & Hst & Hstack & [H1 H2 H3 H4 H5]).
  { by apply dfs_inv_init. }
  { assert (unvisited t ∅ ≤ length (nodes t)) as Hle.
    { unfold unvisited. etrans; [apply length_filter|].
      unfold keys. by rewrite length_fmap. }
    unfold dfs_potential, dfs_fuel. simpl.
    revert Hle. generalize (unvisited t ∅), (length (nodes t)).
    intros a n Hle. apply le_n_S. transitivity (n + n * n); [|lia].
    apply Nat.add_le_mono; [done|]. by apply Nat.mul_le_mono_l. }
  rewrite Hstack in *. exists st. split_and!; [done| | |].
  - intros x. split; [by intros [? _]%H2|].
    induction 1 as [|p v Hp IH Hpar Hcut].
    + destruct H5 as [?|?%elem_of_nil]; done.
    + specialize (H3 p v IH Hpar). rewrite decide_False in H3 by done.
      destruct H3 as [?|?%elem_of_nil]; done.
  - by intros x [_ ?]%H2.
  - intros v. split; [apply H4|]. intros (Hcut & u & Hu & Hp).
    specialize (H3 u v Hu Hp). by rewrite decide_True in H3.
Qed.

(** ** [extract_open_toq]: the induced tree *)

Lemma induced_node_eq toq seen d nid :
  induced_node toq seen d nid
  = do v <- induced_value toq seen nid; Ok (dict_set d nid v).
Proof.
  unfold induced_node, induced_value. by destruct (subscript (nodes toq) nid).
Qed.

Lemma reach_depth t cut root x :
  validate t = Ok tt → reach t cut root x → depth t root ≤ depth t x.
Proof.
  intros Hval. induction 1 as [|p v Hp IH Hpar Hcut]; [done|].
  rewrite (depth_parent t v p Hval Hpar). lia.
Qed.

(** A node is not reached from its own child: the tree has no cycle. *)
Lemma reach_not_parent t cut root p :
  validate t = Ok tt → parent_of t root = Some p → ¬ reach t cut root p.
Proof.
  intros Hval Hpar Hreach%(reach_depth _ _ _ _ Hval).
  rewrite (depth_parent t root p Hval Hpar) in Hreach. lia.
Qed.

Lemma reach_inv t cut root x :
  reach t cut root x →
  x = root ∨ ∃ p, reach t cut root p ∧ parent_of t x = Some p ∧ x ∉ cut.
Proof. destruct 1; eauto. Qed.

(** [extract_open_toq] succeeds at every node of a valid tree; the nodes
    of the induced tree are those reached from [root], each with its text
    and with its parent when that is reached too; the inputs are the cut
    children of the reached nodes. *)
Lemma extract_open_toq_result t plan root :
  valid_toq t → root ∈ keys (nodes t) →
  ∃ (vs : list (Z * ToQNode)) (seen front : gset Z),
    extract_open_toq t plan root
    = Ok (mkOpenToQ (mkToQ vs root) (sorted (elements front)) root) ∧
    dict_wf vs ∧
    (∀ x, x ∈ keys vs ↔ x ∈ seen) ∧
    (∀ x, x ∈ seen ↔ reach t (list_to_set (cut_edges plan)) root x) ∧
    (∀ v, v ∈ front ↔
          v ∈ cut_edges plan ∧ ∃ u, u ∈ seen ∧ parent_of t v = Some u) ∧
    (∀ k n, (k, n) ∈ vs →
            ∃ n0, dict_get (nodes t) k = Some n0 ∧
                  n = mkToQNode k (text n0)
                        match parent n0 with
                        | Some p => if decide (p ∈ seen) then Some p else None
                        | None => None
                        end) ∧
    validate (mkToQ vs root) = Ok tt.
Proof.
  intros [Hwf Hval] Hroot.
  set (cut := list_to_set (C:=gset Z) (cut_edges plan)).
  destruct (dfs_result t cut root Hwf Hroot) as (st & Hst & Hseen & Hkeys & Hfront).
  destruct (foldM_dict_set (induced_value t (internal st)) []
              (elements (internal st))) as (vs & Hvs & Hvskeys & Hall).
  { apply NoDup_elements. }
  { intros k _. apply not_elem_of_nil. }
  { intros k Hk%elem_of_elements%Hkeys%dict_get_is_Some.
    destruct Hk as [n Hn]. unfold induced_value, subscript. rewrite Hn.
    by eexists. }
  simpl in Hvs.
  assert (∀ x, x ∈ keys vs ↔ x ∈ internal st) as Hmem.
  { intros x. by rewrite Hvskeys, elem_of_elements. }
  assert (dict_wf vs) as Hwfvs.
  { unfold dict_wf. rewrite Hvskeys. apply NoDup_elements. }
  assert (∀ k n, (k, n) ∈ vs →
            ∃ n0, dict_get (nodes t) k = Some n0 ∧
                  n = mkToQNode k (text n0)
                        match parent n0 with
                        | Some p => if decide (p ∈ internal st) then Some p else None
                        | None => None
                        end) as Hnodes.
  { intros k n Hin%Hall. unfold induced_value, subscript in Hin.
    destruct (dict_get (nodes t) k) as [n0|]; [|done].
    simpl in Hin. exists n0. split; congruence. }
  assert (validate (mkToQ vs root) = Ok tt) as Hvalid.
  { apply (validate_by_rank _ (depth t)); simpl.
    - assert (root ∈ keys vs) as [v Hv]%elem_of_keys.
      { apply Hmem, Hseen. constructor. }
      exists v. split; [by apply dict_get_Some|].
      destruct (Hnodes _ _ Hv) as (n0 & Hn0 & ->). simpl.
      destruct (parent n0) as [p|] eqn:Hp; [|done].
      case_decide as Hin; [|done]. exfalso.
      apply Hseen in Hin. apply (reach_not_parent t cut root p Hval); [|done].
      unfold parent_of. by rewrite Hn0.
    - intros k n Hin Hne.
      assert (k ∈ internal st) as Hk by (apply Hmem, elem_of_keys; eauto).
      apply Hseen, reach_inv in Hk as [?|(p & Hp & Hpar & Hcut)]; [done|].
      destruct (Hnodes _ _ Hin) as (n0 & Hn0 & ->). simpl.
      unfold parent_of in Hpar. rewrite Hn0 in Hpar. simpl in Hpar.
      rewrite Hpar. apply Hseen in Hp. rewrite decide_True by done.
      exists p. split_and!; [done | by apply Hmem|].
      rewrite (depth_parent t k p Hval); [lia|].
      unfold parent_of. by rewrite Hn0. }
  exists vs, (internal st), (frontier st). split_and!; try done.
  - unfold extract_open_toq. rewrite Hval. cbv zeta. cbn [bind]. fold cut.
    rewrite Hst. cbn [bind].
    rewrite (foldM_ext _ (λ d k, do v <- induced_value t (internal st) k;
                                 Ok (dict_set d k v)))
      by apply induced_node_eq.
    rewrite Hvs. simpl. by rewrite Hvalid.
  - intros v. rewrite Hfront. unfold cut. by rewrite elem_of_list_to_set.
Qed.

(** C7.  At a component root of a valid tree [extract_open_toq] returns an
    open tree whose inputs are, in strictly ascending order, exactly the cut
    edges that are children of internal nodes; whose nodes are exactly the
    nodes reached from the root without entering a cut edge, with their id
    and text; and in which a node has parent [None] exactly when its parent
    in the original tree is not internal, which is the case for the
    component root alone, every other node keeping its parent. *)
Theorem extract_open_toq_component (t : ToQ) (plan : CollapsePlan) (root : Z) :
  valid_toq t → root ∈ component_roots t plan → root ∈ keys (nodes t) →
  ∃ o,
    extract_open_toq t plan root = Ok o ∧
    root_id (open_toq o) = root ∧ open_root_id o = root ∧
    valid_toq (open_toq o) ∧
    StronglySorted Z.lt (inputs o) ∧
    (∀ v, v ∈ inputs o ↔
          v ∈ cut_edges plan ∧
          ∃ u, u ∈ keys (nodes (open_toq o)) ∧ parent_of t v = Some u) ∧
    (∀ x, x ∈ keys (nodes (open_toq o)) ↔
          reach t (list_to_set (cut_edges plan)) root x) ∧
    (∀ k n, (k, n) ∈ nodes (open_toq o) →
            (∃ n0, dict_get (nodes t) k = Some n0 ∧
                   id n = k ∧ text n = text n0) ∧
            (parent n = None ↔
             ∀ p, parent_of t k = Some p → p ∉ keys (nodes (open_toq o))) ∧
            (parent n = None ↔ k = root) ∧
            (k ≠ root → parent n = parent_of t k)).
Proof.
  intros Hvalid _ Hroot.
  destruct (extract_open_toq_result t plan root Hvalid Hroot)
    as (vs & seen & front & -> & Hwf & Hmem & Hseen & Hfront & Hnodes & Hval').
  destruct Hvalid as [Hwft Hval].
  eexists. split; [done|]. simpl. split_and!; try done.
  - apply sorted_lt, NoDup_elements.
  - intros v. rewrite elem_of_sorted, elem_of_elements, Hfront.
    by setoid_rewrite Hmem.
  - intros x. by rewrite Hmem.
  - intros k n Hin.
    assert (k ∈ seen) as Hk by (apply Hmem, elem_of_keys; eauto).
    destruct (Hnodes _ _ Hin) as (n0 & Hn0 & ->). simpl.
    assert (parent_of t k = parent n0) as Hpar
      by (unfold parent_of; by rewrite Hn0).
    rewrite Hpar. setoid_rewrite Hmem.
    assert (k = root → ∀ p, parent n0 = Some p → p ∉ seen) as Hrootcase.
    { intros -> p Hp Hin'%Hseen.
      apply (reach_not_parent t (list_to_set (cut_edges plan)) root p Hval);
        [congruence | done]. }
    assert (k ≠ root → ∃ p, parent n0 = Some p ∧ p ∈ seen) as Hother.
    { intros Hne. apply Hseen, reach_inv in Hk as [?|(p & Hp & Hpar' & _)];
        [done|].
      exists p. split; [congruence | by apply Hseen]. }
    split_and!.
    + eauto.
    + destruct (parent n0) as [p|]; [|naive_solver].
      case_decide; naive_solver.
    + destruct (decide (k = root)) as [Heq|Hne].
      * specialize (Hrootcase Heq). destruct (parent n0) as [p|]; [|done].
        rewrite decide_False; [done|]. by apply Hrootcase.
      * destruct (Hother Hne) as (p & -> & Hp).
        rewrite decide_True by done. done.
    + intros Hne. destruct (Hother Hne) as (p & -> & Hp).
      by rewrite decide_True.
Qed.

(** Every node of a valid tree is reached from one component root. *)
Lemma reach_cover t plan x d :
  validate t = Ok tt → rooted t x d →
  ∃ r, r ∈ component_roots t plan ∧ r ∈ keys (nodes t) ∧
       reach t (list_to_set (cut_edges plan)) r x.
Proof.
  intros Hval. induction 1 as [|k p d Hne Hp Hr (r & Hr1 & Hr2 & Hr3)].
  - exists (root_id t). split_and!.
    + apply elem_of_component_roots. by left.
    + by apply valid_root_key.
    + constructor.
  - destruct (decide (k ∈ cut_edges plan)) as [Hcut|Hcut].
    + exists k. split_and!.
      * apply elem_of_component_roots. by right.
      * by eapply parent_of_key.
      * constructor.
    + exists r. split_and!; [done..|].
      eapply reach_child; [done..|]. by rewrite elem_of_list_to_set.
Qed.

(** No node is reached from two component roots. *)
Lemma reach_unique t plan r1 r2 x :
  validate t = Ok tt →
  r1 ∈ component_roots t plan → r2 ∈ component_roots t plan →
  reach t (list_to_set (cut_edges plan)) r1 x →
  reach t (list_to_set (cut_edges plan)) r2 x →
  r1 = r2.
Proof.
  intros Hval Hr1 Hr2 H1.
  assert (∀ r p, r ∈ component_roots t plan → parent_of t r = Some p →
                 r ∉ list_to_set (C:=gset Z) (cut_edges plan) → False) as Hroot.
  { intros r p [->|Hcut]%elem_of_component_roots Hp Hn.
    - by rewrite (valid_parent_of_root t Hval) in Hp.
    - by apply Hn, elem_of_list_to_set. }
  induction H1 as [|p v Hp IH Hpar Hcut]; intros H2.
  - apply reach_inv in H2 as [?|(p & _ & Hpar & Hcut)]; [done|].
    exfalso. by eapply (Hroot r1).
  - apply reach_inv in H2 as [->|(p' & Hp' & Hpar' & _)].
    + exfalso. by eapply (Hroot r2).
    + apply IH. congruence.
Qed.


(** ** The scenarios of the specification *)

(** Scenario A: the plans of the chain, and its components under the plan
    that cuts above node [1]. *)
Example scenario_A_plans :
  enumerate_collapse_plans chain true
  = Ok [mkCollapsePlan []; mkCollapsePlan [1]; mkCollapsePlan [2];
        mkCollapsePlan [1; 2]]%Z.
Proof. by_evaluation. Qed.

Example scenario_A_components :
  component_roots chain (mkCollapsePlan [1%Z]) = [0; 1]%Z ∧
  (∃ o, extract_open_toq chain (mkCollapsePlan [1%Z]) 0%Z = Ok o ∧
        keys (nodes (open_toq o)) ≡ₚ [0%Z] ∧ inputs o = [1%Z]) ∧
  (∃ o, extract_open_toq chain (mkCollapsePlan [1%Z]) 1%Z = Ok o ∧
        keys (nodes (open_toq o)) ≡ₚ [1; 2]%Z ∧ inputs o = []).
Proof.
  split_and!; [by_evaluation|..]; eexists; (split; [by_evaluation|]);
    (split; [|done]); vm_compute; [done | apply perm_swap].
Qed.

(** Scenario B: the quotient of the chain under that plan. *)
Example scenario_B :
  collapsed_toq <$> (match apply_collapse_plan chain (mkCollapsePlan [1%Z]) two_questions with
                     | Ok res => Some res
                     | Err _ => None
                     end)
  = Some (mkToQ [(0, mkToQNode 0 "Q1" None); (1, mkToQNode 1 "Q2" (Some 0))] 0)%Z.
Proof. by_evaluation. Qed.

(** Scenarios C and D: the two failures. *)
Example scenario_C :
  apply_collapse_plan chain (mkCollapsePlan [0%Z]) two_questions = Err InvalidCut.
Proof. by_evaluation. Qed.

Example scenario_D :
  apply_collapse_plan chain (mkCollapsePlan [2%Z]) two_questions
  = Err MissingCollapsedQuestion.
Proof. by_evaluation. Qed.

(** Scenario E: two parentless nodes. *)
Example scenario_E :
  validate (mkToQ [(0, question 0 None); (1, question 1 None)] 0)%Z
  = Err (TreeErr MultipleRoots).
Proof. by_evaluation. Qed.

(** Values of [/] and of [agreement_rate]: [2 / 3], [1 / 10], a quotient that
    rounds up to the next power of two, a subnormal result, an underflow to
    [0.0], an overflow, and the report with the answers yes, no, yes. *)
Example truediv_two_thirds :
  py_truediv 2 3 = Ok (6004799503160661 # 9007199254740992)%Q.
Proof. by_evaluation. Qed.

Example truediv_one_tenth :
  py_truediv 1 10 = Ok (3602879701896397 # 36028797018963968)%Q.
Proof. by_evaluation. Qed.

Example truediv_rounds_up :
  py_truediv (2 ^ 54 - 1) (2 ^ 54) = Ok 1%Q.
Proof. by_evaluation. Qed.

Example truediv_subnormal :
  py_truediv 3 (2 ^ 1075) = Ok (1 # 2 ^ 1073)%Q.
Proof. by_evaluation. Qed.

Example truediv_underflow :
  py_truediv 1 (2 ^ 1075) = Ok 0%Q.
Proof. by_evaluation. Qed.

Example truediv_overflow :
  py_truediv (2 ^ 1024) 1 = Err OverflowError.
Proof. by_evaluation. Qed.

Example agreement_rate_three_runs :
  agreement_rate three_runs true = Ok (6004799503160661 # 9007199254740992)%Q.
Proof. by_evaluation. Qed.

(** ** The statements at the sample trees *)


Lemma apply_collapse_plan_quotient_witness :
  valid_toq chain ∧
  ∃ res, apply_collapse_plan chain (mkCollapsePlan [1%Z]) two_questions = Ok res ∧
         valid_toq (collapsed_toq res) ∧
         length (nodes (collapsed_toq res)) = 2.
Proof.
  split; [by_evaluation|].
  destruct (apply_collapse_plan_quotient chain (mkCollapsePlan [1%Z]) two_questions)
    as (res & Hres & _ & _ & Hlen & Hvalid & _); [by_evaluation..|].
  exists res. split_and!; [done..|]. by rewrite Hlen.
Defined.

Lemma enumerate_collapse_plans_count_witness :
  valid_toq chain ∧ length (nodes chain) = 3 ∧
  ∃ plans, enumerate_collapse_plans chain false = Ok plans ∧
           length plans = 2 ^ 2 - 1.
Proof.
  split; [by_evaluation|]. split; [done|].
  destruct (enumerate_collapse_plans_count chain 2) as (plans & _ & Hp & _ & Hlen & _);
    [by_evaluation | done |].
  by exists plans.
Defined.

Lemma apply_collapse_plan_failures_witness :
  validate chain = Ok tt ∧
  (∃ c, c ∈ [0%Z] ∧ invalid_cut chain c) ∧
  apply_collapse_plan chain (mkCollapsePlan [0%Z]) two_questions = Err InvalidCut ∧
  validate (mkToQ [(0, question 0 None); (1, question 1 None)] 0)%Z
  = Err (TreeErr MultipleRoots) ∧
  apply_collapse_plan (mkToQ [(0, question 0 None); (1, question 1 None)] 0)%Z
    (mkCollapsePlan [1%Z]) two_questions
  = Err (TreeErr MultipleRoots).
Proof.
  assert (∃ c, c ∈ [0%Z] ∧ invalid_cut chain c) as Hbad.
  { exists 0%Z. split; [left | by left]. }
  split; [by_evaluation|]. split; [done|]. split.
  - destruct (apply_collapse_plan_failures chain (mkCollapsePlan [0%Z])
                two_questions) as (Hcut & _).
    apply Hcut; [by_evaluation | done].
  - split; [by_evaluation|].
    destruct (apply_collapse_plan_failures
                (mkToQ [(0, question 0 None); (1, question 1 None)] 0)%Z
                (mkCollapsePlan [1%Z]) two_questions) as (_ & _ & Hval & _).
    apply Hval. by_evaluation.
Defined.

Lemma component_roots_sorted_union_witness :
  NoDup [1; 2]%Z ∧ (0%Z ∉ [1; 2]%Z) ∧
  length (component_roots chain (mkCollapsePlan [1; 2]%Z)) = 3.
Proof.
  assert (NoDup [1; 2]%Z) as Hnd by by_evaluation.
  assert (0%Z ∉ [1; 2]%Z) as Hroot by by_evaluation.
  split_and!; [done..|].
  by apply (component_roots_sorted_union chain (mkCollapsePlan [1; 2]%Z)).
Defined.

Lemma enumerate_collapse_plans_order_witness :
  valid_toq chain_unordered ∧
  enumerate_collapse_plans chain_unordered false
  = Ok (concat (plans_of_size (non_root_ids chain_unordered) <$> seq 1 2)).
Proof.
  split; [by_evaluation|].
  apply (enumerate_collapse_plans_order chain_unordered false). by_evaluation.
Defined.

Lemma extract_open_toq_component_witness :
  valid_toq chain ∧
  1%Z ∈ component_roots chain (mkCollapsePlan [1%Z]) ∧
  1%Z ∈ keys (nodes chain) ∧
  ∃ o, extract_open_toq chain (mkCollapsePlan [1%Z]) 1%Z = Ok o ∧
       valid_toq (open_toq o) ∧ StronglySorted Z.lt (inputs o).
Proof.
  split_and!; [by_evaluation..|].
  destruct (extract_open_toq_component chain (mkCollapsePlan [1%Z]) 1%Z)
    as (o & Ho & _ & _ & Hvalid & Hsorted & _); [by_evaluation..|].
  by exists o.
Defined.

Lemma component_root_terminates_witness :
  valid_toq chain ∧ 2%Z ∈ keys (nodes chain) ∧
  ∃ r, _component_root chain 2%Z {[ 1%Z ]} = Ok r ∧
       stops_at chain {[ 1%Z ]} 2%Z r.
Proof.
  split_and!; [by_evaluation..|].
  destruct (component_root_terminates chain 2%Z {[ 1%Z ]})
    as (r & Hr & _ & Hstop & _); [by_evaluation..|].
  by exists r.
Defined.

Lemma apply_empty_plan_witness :
  valid_toq chain ∧ two_questions !! root_id chain = Some "Q1"%string ∧
  ∃ res, apply_collapse_plan chain (mkCollapsePlan []) two_questions = Ok res ∧
         nodes (collapsed_toq res) = [(0%Z, mkToQNode 0%Z "Q1" None)].
Proof.
  split_and!; [by_evaluation..|].
  destruct (apply_empty_plan chain two_questions "Q1")
    as (res & Hres & Hnodes & _); [by_evaluation..|].
  by exists res.
Defined.

Lemma agreement_rate_modal_witness :
  runs three_runs ≠ [] ∧
  (Z.of_nat (length (runs three_runs)) < 2 ^ 1022)%Z ∧
  ∃ q, agreement_rate three_runs true = Ok q ∧ (0 < q)%Q ∧ (q <= 1)%Q.
Proof.
  assert (runs three_runs ≠ []) as Hruns by done.
  assert (Z.of_nat (length (runs three_runs)) < 2 ^ 1022)%Z as Hlen
    by (vm_compute; reflexivity).
  split_and!; [done..|].
  destruct (agreement_rate_modal three_runs true) as (_ & Hsome & _).
  destruct (Hsome Hruns) as (answer & q & _ & _ & _ & Hrate & _ & _ & Hle & Hpos).
  exists q. split_and!; [done | by apply Hpos | done].
Defined.

(** A plan that lists the root has a single component root, not two. *)
Lemma component_roots_cardinality_counterexample :
  component_roots chain (mkCollapsePlan [0%Z]) = [0%Z] ∧
  length (component_roots chain (mkCollapsePlan [0%Z]))
  ≠ length (cut_edges (mkCollapsePlan [0%Z])) + 1.
Proof. split; [by_evaluation|]. vm_compute. lia. Qed.

(** A mapping that holds node [2] before node [1] gives the edges, and with
    them the plans of size one, in that order rather than in ascending
    order. *)
Lemma enumerate_collapse_plans_order_counterexample :
  valid_toq chain_unordered ∧
  non_root_ids chain_unordered = [2; 1]%Z ∧
  enumerate_collapse_plans chain_unordered true
  = Ok [mkCollapsePlan []; mkCollapsePlan [2]; mkCollapsePlan [1];
        mkCollapsePlan [1; 2]]%Z ∧
  enumerate_collapse_plans chain_unordered true
  ≠ Ok (concat (plans_of_size (sorted (non_root_ids chain_unordered))
                  <$> seq 0 3)).
Proof.
  split_and!; [by_evaluation..|]. vm_compute. intros [=].
Qed.

(** The cut edges are checked before the collapsed questions, and the tree
    before both: a plan that cuts the root fails with [InvalidCut] also when
    the root has no collapsed question, and an invalid tree fails in
    [validate]. *)
Lemma apply_collapse_plan_failures_counterexample :
  valid_toq chain ∧
  0%Z ∈ component_roots chain (mkCollapsePlan [0%Z]) ∧
  (∅ : gmap Z string) !! 0%Z = None ∧
  apply_collapse_plan chain (mkCollapsePlan [0%Z]) ∅ = Err InvalidCut ∧
  apply_collapse_plan chain (mkCollapsePlan [0%Z]) ∅
  ≠ Err MissingCollapsedQuestion ∧
  apply_collapse_plan (mkToQ [(0, question 0 None); (1, question 1 None)] 0)%Z
    (mkCollapsePlan [0%Z]) two_questions
  = Err (TreeErr MultipleRoots).
Proof.
  split_and!; [by_evaluation..| |by_evaluation]. vm_compute. intros [=].
Qed.

(** * Further properties *)

(** ** [_component_root] and the components *)

Lemma stops_at_reach t cut k r : stops_at t cut k r → reach t cut r k.
Proof.
  induction 1 as [|cur n p r Hn Hp Hcut Hs IH]; [constructor|].
  eapply reach_child; [done| |done]. unfold parent_of. by rewrite Hn.
Qed.

Lemma reach_stops_at t cut r x :
  (∃ n, dict_get (nodes t) r = Some n ∧ (parent n = None ∨ r ∈ cut)) →
  reach t cut r x → stops_at t cut x r.
Proof.
  intros (n & Hn & Hstop). induction 1 as [|p v Hp IH Hpar Hcut].
  - by econstructor.
  - unfold parent_of in Hpar.
    destruct (dict_get (nodes t) v) as [nv|] eqn:Hnv; [simpl in Hpar|done].
    by eapply stop_above.
Qed.

(** A component root that is a node of the tree has no parent or is cut. *)
Lemma component_root_stops t plan r :
  validate t = Ok tt → r ∈ component_roots t plan → r ∈ keys (nodes t) →
  ∃ n, dict_get (nodes t) r = Some n ∧
       (parent n = None ∨ r ∈ list_to_set (C:=gset Z) (cut_edges plan)).
Proof.
  intros Hval Hr [n Hn]%dict_get_is_Some. exists n. split; [done|].
  apply elem_of_component_roots in Hr as [->|Hr].
  - left. destruct (valid_root t Hval) as (rn & Hrn & Hp). congruence.
  - right. by apply elem_of_list_to_set.
Qed.

Lemma component_root_eq t cut k r :
  validate t = Ok tt → k ∈ keys (nodes t) →
  _component_root t k cut = Ok r ↔ stops_at t cut k r.
Proof.
  intros Hval Hk.
  destruct (component_root_result t cut k Hval Hk) as (r' & Hr' & Hs').
  rewrite Hr'. split.
  - by intros [= <-].
  - intros Hs. f_equal. by eapply stops_at_det.
Qed.

Lemma stops_at_key t cut k r : stops_at t cut k r → k ∈ keys (nodes t).
Proof. destruct 1; apply dict_get_is_Some; eauto. Qed.

(** X1.  On a valid tree the walk from a node ends at a component root of
    the plan whose cut edges form the cut set: a node of the tree that is
    listed by [component_roots], from which the walk returns at once, and
    that is no deeper than the start. *)
Theorem component_root_is_component_root (t : ToQ) (plan : CollapsePlan) (k : Z) :
  valid_toq t → k ∈ keys (nodes t) →
  ∃ r, _component_root t k (list_to_set (cut_edges plan)) = Ok r ∧
       r ∈ component_roots t plan ∧ r ∈ keys (nodes t) ∧
       _component_root t r (list_to_set (cut_edges plan)) = Ok r ∧
       depth t r ≤ depth t k.
Proof.
  intros [_ Hval] Hk.
  destruct (component_root_result t (list_to_set (cut_edges plan)) k Hval Hk)
    as (r & Hr & Hs).
  destruct (stops_at_stop _ _ _ _ Hs) as (n & Hn & Hstop).
  assert (r ∈ keys (nodes t)) as Hrk by (apply dict_get_is_Some; eauto).
  exists r. split_and!; [done| |done| |by eapply stops_at_depth].
  - apply elem_of_component_roots. destruct Hstop as [Hnone|Hin].
    + left. apply (valid_no_parent t Hval); [done|].
      unfold parent_of. by rewrite Hn.
    + right. by apply elem_of_list_to_set in Hin.
  - apply component_root_eq; [done..|]. by econstructor.
Qed.

(** X2.  The two descriptions of a component agree: the nodes of the tree
    that [extract_open_toq] returns at a component root [r] are exactly the
    nodes from which [_component_root] walks up to [r]. *)
Theorem extract_open_toq_nodes_by_walk (t : ToQ) (plan : CollapsePlan) (r : Z) :
  valid_toq t → r ∈ component_roots t plan → r ∈ keys (nodes t) →
  ∃ o, extract_open_toq t plan r = Ok o ∧
       ∀ x, x ∈ keys (nodes (open_toq o)) ↔
            _component_root t x (list_to_set (cut_edges plan)) = Ok r.
Proof.
  intros Hvalid Hr Hrk.
  destruct (extract_open_toq_result t plan r Hvalid Hrk)
    as (vs & seen & front & -> & _ & Hmem & Hseen & _).
  destruct Hvalid as [Hwf Hval].
  eexists. split; [done|]. simpl. intros x. rewrite Hmem, Hseen. split.
  - intros Hreach.
    assert (stops_at t (list_to_set (cut_edges plan)) x r) as Hs.
    { apply reach_stops_at; [|done]. by apply component_root_stops. }
    apply component_root_eq; [done| |done]. by eapply stops_at_key.
  - intros Hx. apply stops_at_reach.
    destruct (decide (x ∈ keys (nodes t))) as [Hk|Hk].
    + by apply component_root_eq in Hx.
    + exfalso. apply dict_get_None in Hk.
      unfold _component_root in Hx. simpl in Hx. unfold subscript in Hx.
      by rewrite Hk in Hx.
Qed.

(** X3.  Without a node that lacks a parent and without a cut node the walk
    has nowhere to stop: on a mapping whose nodes all have a parent among
    the nodes, the loop of [_component_root] with an empty cut set has not
    returned after any number of iterations, so [_component_root] never
    returns. *)
Theorem component_root_diverges_without_root (t : ToQ) (k : Z) :
  (∀ x, x ∈ keys (nodes t) →
        ∃ p, parent_of t x = Some p ∧ p ∈ keys (nodes t)) →
  k ∈ keys (nodes t) →
  (∀ fuel, _component_root_loop t ∅ fuel k = Err Diverges) ∧
  _component_root t k ∅ = Err Diverges.
Proof.
  intros Hall Hk.
  assert (∀ fuel, _component_root_loop t ∅ fuel k = Err Diverges) as Hloop;
    [|split; [done | apply Hloop]].
  intros fuel. revert k Hk.
  induction fuel as [|f IH]; intros k Hk; simpl; [done|].
  destruct (Hall k Hk) as (p & Hp & Hpk). unfold parent_of in Hp.
  unfold subscript.
  destruct (dict_get (nodes t) k) as [n|]; [simpl in *|done].
  rewrite Hp. rewrite decide_False by apply not_elem_of_empty. by apply IH.
Qed.

(** ** [apply_collapse_plan]: what the quotient holds *)

Lemma foldM_dict_set_ok {V} (f : Z → Result V) (acc d : list (Z * V)) (l : list Z) :
  foldM (λ d k, do v <- f k; Ok (dict_set d k v)) acc l = Ok d →
  ∀ k, k ∈ l → is_ok (f k).
Proof.
  revert acc. induction l as [|x l IH]; intros acc Hd k Hk.
  - by apply elem_of_nil in Hk.
  - simpl in Hd. destruct (f x) as [v|e] eqn:Hfx; [simpl in Hd|done].
    apply elem_of_cons in Hk as [->|Hk]; [by eexists | by eapply IH].
Qed.

Lemma foldM_dict_set_inv {V} (f : Z → Result V) (d : list (Z * V)) (l : list Z) :
  NoDup l →
  foldM (λ d k, do v <- f k; Ok (dict_set d k v)) [] l = Ok d →
  keys d = l ∧ ∀ k v, (k, v) ∈ d → f k = Ok v.
Proof.
  intros Hnd Hd.
  destruct (foldM_dict_set f [] l Hnd) as (vs & Hvs & Hkeys & Hall).
  - intros k _. apply not_elem_of_nil.
  - by eapply foldM_dict_set_ok.
  - rewrite Hvs in Hd. injection Hd as <-. done.
Qed.

(** What a result of [apply_collapse_plan] has been through. *)
Lemma apply_collapse_plan_inv t plan cq res :
  apply_collapse_plan t plan cq = Ok res →
  validate t = Ok tt ∧
  res = mkCollapsedToQ (collapsed_toq res) plan
          (list_to_set (keys (nodes t)) ∖ list_to_set (component_roots t plan))
          cq (component_roots t plan) None ∧
  root_id (collapsed_toq res) = root_id t ∧
  keys (nodes (collapsed_toq res)) = component_roots t plan ∧
  ∀ k v, (k, v) ∈ nodes (collapsed_toq res) →
         quotient_value t (list_to_set (cut_edges plan)) cq k = Ok v.
Proof.
  unfold apply_collapse_plan.
  destruct (validate t) as [[]|e] eqn:Hval; [simpl|done].
  case_decide; [done|].
  destruct (foldM (check_cut t) _ _) as [[]|?]; [simpl|done].
  destruct (foldM (check_question cq) _ _) as [[]|?]; [simpl|done].
  rewrite (foldM_ext _ (λ d k, do v <- quotient_value t
                                        (list_to_set (cut_edges plan)) cq k;
                               Ok (dict_set d k v)))
    by apply quotient_node_eq.
  destruct (foldM _ [] (component_roots t plan)) as [vs|?] eqn:Hvs; [simpl|done].
  destruct (validate (mkToQ vs (root_id t))) as [[]|?]; [simpl|done].
  intros [= <-]. simpl.
  apply foldM_dict_set_inv in Hvs as [Hkeys Hall];
    [|apply NoDup_component_roots].
  done.
Qed.

Lemma quotient_value_inv t cut cq k v :
  quotient_value t cut cq k = Ok v →
  id v = k ∧ cq !! k = Some (text v) ∧
  if decide (k = root_id t) then parent v = None
  else ∃ p c, parent_of t k = Some p ∧ _component_root t p cut = Ok c ∧
              parent v = Some c.
Proof.
  unfold quotient_value. case_decide as Hk; simpl.
  - destruct (cq !! k); [|done]. by intros [= <-].
  - unfold subscript, parent_of.
    destruct (dict_get (nodes t) k) as [n|]; [simpl|done].
    destruct (parent n) as [p|]; [|done].
    destruct (_component_root t p cut) as [c|] eqn:Hc; [simpl|done].
    destruct (cq !! k); [|done]. intros [= <-]. simpl. eauto 10.
Qed.

(** X4.  The quotient is wired as the docstring of [apply_collapse_plan]
    says: the node kept for a component root [r] has id [r] and the text
    [collapsed_question_by_root[r]]; the root has no parent and every other
    [r] hangs under [_component_root] of its original parent.  The result
    records the plan and the mapping it was given, and no open trees. *)
Theorem apply_collapse_plan_rewires (t : ToQ) (plan : CollapsePlan)
    (cq : gmap Z string) :
  valid_toq t →
  (∀ c, c ∈ cut_edges plan → c ∈ keys (nodes t) ∧ c ≠ root_id t) →
  (∀ r, r ∈ component_roots t plan → is_Some (cq !! r)) →
  ∃ res,
    apply_collapse_plan t plan cq = Ok res ∧
    collapsed_plan res = plan ∧
    collapsed_question_by_root res = cq ∧
    open_toq_by_root res = None ∧
    ∀ k n, (k, n) ∈ nodes (collapsed_toq res) →
           id n = k ∧ cq !! k = Some (text n) ∧
           if decide (k = root_id t) then parent n = None
           else ∃ p c, parent_of t k = Some p ∧
                       _component_root t p (list_to_set (cut_edges plan)) = Ok c ∧
                       parent n = Some c.
Proof.
  intros Hvalid Hcuts Hcq.
  destruct (apply_collapse_plan_result t plan cq Hvalid Hcuts Hcq)
    as (vs & Hres & _).
  eexists. split; [done|].
  destruct (apply_collapse_plan_inv _ _ _ _ Hres) as (_ & _ & _ & _ & Hall).
  simpl in *. split_and!; [done..|].
  intros k n Hin. by apply quotient_value_inv, Hall.
Qed.

Lemma invalid_cut_dec t c : Decision (invalid_cut t c).
Proof.
  unfold invalid_cut.
  destruct (dict_get (nodes t) c) as [n|] eqn:Hn.
  - destruct (parent n) as [p|] eqn:Hp.
    + destruct (decide (c = root_id t)); [left; by left|].
      right. intros [?|[Hout|(n' & Hn' & Hp')]]; [done| |congruence].
      apply dict_get_None in Hout. congruence.
    + left. right; right. eauto.
  - left. right; left. by apply dict_get_None.
Qed.

(** X5.  On a valid tree [apply_collapse_plan] returns a result exactly
    when every cut edge is a node of the tree other than the root and every
    component root has a collapsed question, and the only errors it raises
    are [InvalidCut] and [MissingCollapsedQuestion]: no subscript, assertion
    or final validation ever fails. *)
Theorem apply_collapse_plan_succeeds_iff (t : ToQ) (plan : CollapsePlan)
    (cq : gmap Z string) :
  valid_toq t →
  (is_ok (apply_collapse_plan t plan cq) ↔
   (∀ c, c ∈ cut_edges plan → c ∈ keys (nodes t) ∧ c ≠ root_id t) ∧
   (∀ r, r ∈ component_roots t plan → is_Some (cq !! r))) ∧
  (∀ e, apply_collapse_plan t plan cq = Err e →
        e = InvalidCut ∨ e = MissingCollapsedQuestion).
Proof.
  intros Hvalid. pose proof Hvalid as [Hwf Hval].
  pose proof (invalid_cut_dec t) as Hdec.
  destruct (decide (Exists (invalid_cut t) (cut_edges plan))) as [Hex|Hnex].
  { apply Exists_exists in Hex as (c & Hc & Hbad).
    rewrite (apply_collapse_plan_invalid_cut t plan cq c Hval Hc Hbad).
    split; [|intros e [= <-]; by left]. split; [by intros [? ?]|].
    intros [Hcuts _]. exfalso. destruct (Hcuts c Hc).
    by eapply good_cut_not_invalid. }
  assert (∀ c, c ∈ cut_edges plan → ¬ invalid_cut t c) as Hgood.
  { intros c Hc Hbad. apply Hnex, Exists_exists. eauto. }
  assert (∀ c, c ∈ cut_edges plan → c ∈ keys (nodes t) ∧ c ≠ root_id t) as Hcuts.
  { intros c Hc. specialize (Hgood c Hc). unfold invalid_cut in Hgood.
    split; [|tauto]. destruct (decide (c ∈ keys (nodes t))); tauto. }
  destruct (decide (Exists (λ r, cq !! r = None) (component_roots t plan)))
    as [Hex|Hnex'].
  { apply Exists_exists in Hex as (r & Hr & Hmiss).
    rewrite (apply_collapse_plan_missing_question t plan cq r Hval Hgood Hr Hmiss).
    split; [|intros e [= <-]; by right]. split; [by intros [? ?]|].
    intros [_ Hcq]. destruct (Hcq r Hr). congruence. }
  assert (∀ r, r ∈ component_roots t plan → is_Some (cq !! r)) as Hcq.
  { intros r Hr. destruct (cq !! r) eqn:E; [eauto|].
    exfalso. apply Hnex', Exists_exists. eauto. }
  destruct (apply_collapse_plan_result t plan cq Hvalid Hcuts Hcq)
    as (vs & -> & _).
  split; [|done]. split; [done | by eexists].
Qed.

(** X6.  The edges of the quotient are the inputs of the components: a
    component root [k] other than the root hangs under the component root
    [c] in the quotient exactly when [k] is an input of the open tree
    extracted at [c]. *)
Theorem quotient_edges_are_inputs (t : ToQ) (plan : CollapsePlan)
    (cq : gmap Z string) :
  valid_toq t →
  (∀ c, c ∈ cut_edges plan → c ∈ keys (nodes t) ∧ c ≠ root_id t) →
  (∀ r, r ∈ component_roots t plan → is_Some (cq !! r)) →
  ∃ res,
    apply_collapse_plan t plan cq = Ok res ∧
    ∀ k n c, (k, n) ∈ nodes (collapsed_toq res) → k ≠ root_id t →
             c ∈ component_roots t plan →
             (parent n = Some c ↔
              ∃ o, extract_open_toq t plan c = Ok o ∧ k ∈ inputs o).
Proof.
  intros Hvalid Hcuts Hcq. pose proof Hvalid as [Hwf Hval].
  destruct (apply_collapse_plan_result t plan cq Hvalid Hcuts Hcq)
    as (vs & Hres & _).
  eexists. split; [done|].
  destruct (apply_collapse_plan_inv _ _ _ _ Hres) as (_ & _ & _ & Hkeys & Hall).
  simpl in *. intros k n c Hin Hne Hc.
  assert (c ∈ keys (nodes t)) as Hck.
  { apply elem_of_component_roots in Hc as [->|Hc];
      [by apply valid_root_key | by apply Hcuts]. }
  assert (k ∈ cut_edges plan) as Hkcut.
  { assert (k ∈ component_roots t plan) as Hk
      by (rewrite <- Hkeys; apply elem_of_keys; eauto).
    apply elem_of_component_roots in Hk as [?|?]; done. }
  destruct (quotient_value_inv _ _ _ _ _ (Hall _ _ Hin)) as (_ & _ & Hpar).
  rewrite decide_False in Hpar by done.
  destruct Hpar as (p & c' & Hp & Hc' & ->).
  assert (p ∈ keys (nodes t)) as Hpk by (by eapply valid_parent_key).
  destruct (extract_open_toq_result t plan c Hvalid Hck)
    as (ws & seen & front & Hext & _ & _ & Hseen & Hfront & _).
  rewrite Hext. split.
  - intros [= ->]. eexists. split; [done|]. simpl.
    rewrite elem_of_sorted, elem_of_elements, Hfront. split; [done|].
    exists p. split; [|done]. apply Hseen, stops_at_reach.
    by apply component_root_eq in Hc'.
  - intros (o & [= <-] & Hk). simpl in Hk.
    apply elem_of_sorted, elem_of_elements, Hfront in Hk
      as (_ & u & Hu%Hseen & Hpu).
    assert (u = p) as -> by congruence.
    f_equal. assert (_component_root t p (list_to_set (cut_edges plan)) = Ok c)
      as Hcp; [|congruence].
    apply component_root_eq; [done..|].
    apply reach_stops_at; [|done]. by apply component_root_stops.
Qed.

Lemma elem_of_non_root_ids t x :
  x ∈ non_root_ids t ↔ x ∈ keys (nodes t) ∧ x ≠ root_id t.
Proof. unfold non_root_ids. rewrite list_elem_of_filter. tauto. Qed.

(** X7.  Cutting every edge keeps the shape of the tree: with the plan that
    lists every node but the root, and a collapsed question for every node,
    the quotient has all the nodes of the tree, each under its original
    parent and with its collapsed question as text, and nothing is
    removed. *)
Theorem apply_collapse_plan_cut_everything (t : ToQ) (cq : gmap Z string) :
  valid_toq t →
  (∀ k, k ∈ keys (nodes t) → is_Some (cq !! k)) →
  ∃ res,
    apply_collapse_plan t (cut_everything t) cq = Ok res ∧
    keys (nodes (collapsed_toq res)) ≡ₚ keys (nodes t) ∧
    removed_nodes res = ∅ ∧
    ∀ k n, (k, n) ∈ nodes (collapsed_toq res) →
           parent n = parent_of t k ∧ cq !! k = Some (text n).
Proof.
  intros Hvalid Hcq. pose proof Hvalid as [Hwf Hval].
  assert (∀ x, x ∈ component_roots t (cut_everything t) ↔ x ∈ keys (nodes t))
    as Hroots.
  { intros x. rewrite elem_of_component_roots. simpl.
    rewrite elem_of_sorted, elem_of_non_root_ids.
    pose proof (valid_root_key t Hval).
    destruct (decide (x = root_id t)) as [->|]; tauto. }
  assert (∀ c, c ∈ cut_edges (cut_everything t) →
               c ∈ keys (nodes t) ∧ c ≠ root_id t) as Hcuts.
  { intros c. simpl. by rewrite elem_of_sorted, elem_of_non_root_ids. }
  destruct (apply_collapse_plan_result t (cut_everything t) cq Hvalid Hcuts)
    as (vs & Hres & _).
  { intros r Hr. by apply Hcq, Hroots. }
  eexists. split; [done|].
  destruct (apply_collapse_plan_inv _ _ _ _ Hres) as (_ & _ & _ & Hkeys & Hall).
  simpl in *. split_and!.
  - rewrite Hkeys. apply NoDup_Permutation;
      [apply NoDup_component_roots | done | done].
  - apply set_eq. intros x.
    rewrite elem_of_difference, !elem_of_list_to_set, Hroots.
    rewrite elem_of_empty. tauto.
  - intros k n Hin.
    destruct (quotient_value_inv _ _ _ _ _ (Hall _ _ Hin)) as (_ & Htxt & Hpar).
    split; [|done]. case_decide as Hk.
    + subst k. by rewrite (valid_parent_of_root t Hval).
    + destruct Hpar as (p & c & Hp & Hc & ->). rewrite Hp. f_equal.
      assert (p ∈ keys (nodes t)) as Hpk by (by eapply valid_parent_key).
      apply component_root_eq in Hc; [|done..].
      eapply stops_at_det; [done|].
      destruct (component_root_stops t (cut_everything t) p Hval)
        as (n' & Hn' & Hstop); [by apply Hroots | done |].
      by econstructor.
Qed.

(** ** [extract_open_toq]: edge cases *)

Lemma dfs_loop_done t cut fuel seen front :
  dfs_loop t cut fuel (mkDfs [] seen front) = Ok (mkDfs [] seen front).
Proof. by destruct fuel. Qed.

(** X8.  On a valid tree [extract_open_toq] returns an open tree exactly
    when [root] is a node of the tree; for any other [root] the traversal
    marks [root] alone and the lookup of its node raises [KeyError]. *)
Theorem extract_open_toq_needs_node (t : ToQ) (plan : CollapsePlan) (root : Z) :
  valid_toq t →
  (is_ok (extract_open_toq t plan root) ↔ root ∈ keys (nodes t)) ∧
  (root ∉ keys (nodes t) → extract_open_toq t plan root = Err KeyError).
Proof.
  intros Hvalid. pose proof Hvalid as [Hwf Hval].
  assert (root ∉ keys (nodes t) → extract_open_toq t plan root = Err KeyError)
    as Hmiss.
  { intros Hroot.
    assert (children_get t root = []) as Hch.
    { destruct (children_get t root) as [|v vs] eqn:E; [done|]. exfalso.
      assert (v ∈ children_get t root) as Hv by (rewrite E; left).
      apply elem_of_children_get in Hv; [|done].
      apply Hroot. by eapply valid_parent_key. }
    unfold extract_open_toq. rewrite Hval. cbv zeta. cbn [bind].
    unfold dfs_fuel. cbn [dfs_loop stack internal frontier].
    rewrite decide_False by apply not_elem_of_empty.
    rewrite Hch. cbn [foldl]. rewrite dfs_loop_done. cbn [bind internal].
    rewrite (left_id_L ∅ (∪)), elements_singleton. cbn [foldM].
    unfold induced_node, subscript.
    apply dict_get_None in Hroot. by rewrite Hroot. }
  split; [|done]. split.
  - intros [o Ho]. destruct (decide (root ∈ keys (nodes t))) as [|Hout]; [done|].
    rewrite (Hmiss Hout) in Ho. done.
  - intros Hroot.
    destruct (extract_open_toq_result t plan root Hvalid Hroot)
      as (vs & seen & front & -> & _). by eexists.
Qed.

(** X9.  Without cuts the component of the root is the whole tree: at the
    root and with the empty plan [extract_open_toq] returns a tree with the
    same node ids, every node with its text and its parent, and no
    inputs. *)
Theorem extract_open_toq_whole_tree (t : ToQ) :
  valid_toq t →
  ∃ o,
    extract_open_toq t (mkCollapsePlan []) (root_id t) = Ok o ∧
    keys (nodes (open_toq o)) ≡ₚ keys (nodes t) ∧
    inputs o = [] ∧
    ∀ k n, (k, n) ∈ nodes (open_toq o) →
           ∃ n0, dict_get (nodes t) k = Some n0 ∧
                 id n = k ∧ text n = text n0 ∧ parent n = parent n0.
Proof.
  intros Hvalid. pose proof Hvalid as [Hwf Hval].
  destruct (extract_open_toq_result t (mkCollapsePlan []) (root_id t) Hvalid)
    as (vs & seen & front & -> & Hwfvs & Hmem & Hseen & Hfront & Hnodes & _).
  { by apply valid_root_key. }
  assert (∀ x, x ∈ seen ↔ x ∈ keys (nodes t)) as Hall.
  { intros x. rewrite Hseen. split.
    - intros [->|(p & _ & Hp & _)]%reach_inv;
        [by apply valid_root_key | by eapply parent_of_key].
    - intros Hx. destruct (valid_rooted t Hval x Hx) as (d & _ & Hd).
      destruct (reach_cover t (mkCollapsePlan []) x d Hval Hd)
        as (r & Hr & _ & Hreach).
      rewrite component_roots_empty in Hr.
      by apply list_elem_of_singleton in Hr as ->. }
  eexists. split; [done|]. simpl. split_and!.
  - apply NoDup_Permutation; [done..|]. intros x. by rewrite Hmem, Hall.
  - destruct (sorted (elements front)) as [|v l] eqn:E; [done|]. exfalso.
    assert (v ∈ sorted (elements front)) as Hv by (rewrite E; left).
    apply elem_of_sorted, elem_of_elements, Hfront in Hv as [Hv _].
    simpl in Hv. by apply elem_of_nil in Hv.
  - intros k n Hin. destruct (Hnodes _ _ Hin) as (n0 & Hn0 & ->).
    exists n0. simpl. split_and!; [done..|].
    destruct (parent n0) as [p|] eqn:Hp; [|done].
    rewrite decide_True; [done|].
    apply Hall. eapply (valid_parent_key t Hval k).
    unfold parent_of. by rewrite Hn0.
Qed.

(** ** [enumerate_collapse_plans]: which plans, and what they are good for *)

Lemma StronglySorted_lt_NoDup (l : list Z) : StronglySorted Z.lt l → NoDup l.
Proof.
  induction 1 as [|x l Hs IH Hall]; constructor; [|done].
  intros Hin. rewrite Forall_forall in Hall. specialize (Hall x Hin). lia.
Qed.

(** Sorting a list gives the one strictly ascending list with its members. *)
Lemma sorted_unique (l1 l2 : list Z) :
  l1 ≡ₚ l2 → StronglySorted Z.lt l2 → sorted l1 = l2.
Proof.
  intros Hp Hl.
  assert (StronglySorted Z.le l2) as Hle.
  { clear Hp. induction Hl as [|x xs Hs IH Hall]; [constructor|].
    constructor; [done|]. apply Forall_forall. intros y Hy.
    rewrite Forall_forall in Hall. specialize (Hall y Hy). lia. }
  apply (Sorted_unique_strong Z.le).
  - intros; lia.
  - apply StronglySorted_Sorted, sorted_le.
  - by apply StronglySorted_Sorted.
  - by rewrite sorted_perm.
Qed.

Lemma elem_of_enumerated (t : ToQ) (include_empty : bool) (p : CollapsePlan) :
  dict_wf (nodes t) →
  p ∈ concat (plans_of_size (non_root_ids t)
                <$> seq (if include_empty then 0 else 1)
                        (if include_empty then S (length (non_root_ids t))
                         else length (non_root_ids t))) →
  StronglySorted Z.lt (cut_edges p) ∧
  ∀ c, c ∈ cut_edges p → c ∈ keys (nodes t) ∧ c ≠ root_id t.
Proof.
  intros Hwf (s & -> & Hsub)%elem_of_plans. simpl. split.
  - apply sorted_lt. eapply sublist_NoDup; [|done]. by apply NoDup_non_root_ids.
  - intros c Hc. rewrite elem_of_sorted in Hc. apply elem_of_non_root_ids.
    apply sublist_submseteq in Hsub. by eapply elem_of_submseteq.
Qed.

(** X10.  The enumeration is exact: on a valid tree the plans returned with
    [include_empty] are precisely the plans whose cut edges are a strictly
    ascending list of nodes of the tree other than the root. *)
Theorem enumerate_collapse_plans_exact (t : ToQ) :
  valid_toq t →
  ∃ plans,
    enumerate_collapse_plans t true = Ok plans ∧
    ∀ p, p ∈ plans ↔
         StronglySorted Z.lt (cut_edges p) ∧
         ∀ c, c ∈ cut_edges p → c ∈ keys (nodes t) ∧ c ≠ root_id t.
Proof.
  intros [Hwf Hval]. eexists. split; [by apply enumerate_collapse_plans_eq|].
  intros p. split; [by apply (elem_of_enumerated t true)|].
  intros [Hsorted Hcuts]. destruct p as [l]. cbn [cut_edges] in *.
  pose proof (NoDup_non_root_ids t Hwf) as Hnd.
  set (s := filter (λ x, x ∈ l) (non_root_ids t)).
  assert (s ≡ₚ l) as Hperm.
  { apply NoDup_Permutation.
    - by apply NoDup_filter.
    - by apply StronglySorted_lt_NoDup.
    - intros x. unfold s. rewrite list_elem_of_filter, elem_of_non_root_ids.
      split; [tauto|]. intros Hx. split; [done | by apply Hcuts]. }
  rewrite plans_concat. apply list_elem_of_fmap. exists s. split.
  - f_equal. symmetry. by apply sorted_unique.
  - fold (combinations_below (non_root_ids t) (S (length (non_root_ids t)))).
    apply elem_of_combinations_below. split; [apply sublist_filter|].
    apply Nat.lt_succ_r, length_filter.
Qed.

(** X11.  Every enumerated plan can be carried out: on a valid tree, for
    each plan of the enumeration (with or without the empty plan) the
    component roots are one more than its cut edges, [extract_open_toq]
    succeeds at each of them, and [apply_collapse_plan] succeeds with any
    mapping that has a collapsed question for each of them, giving a
    quotient with that many nodes. *)
Theorem enumerated_plans_apply (t : ToQ) (include_empty : bool) :
  valid_toq t →
  ∃ plans,
    enumerate_collapse_plans t include_empty = Ok plans ∧
    ∀ p, p ∈ plans →
         length (component_roots t p) = length (cut_edges p) + 1 ∧
         (∀ r, r ∈ component_roots t p → is_ok (extract_open_toq t p r)) ∧
         ∀ cq, (∀ r, r ∈ component_roots t p → is_Some (cq !! r)) →
               ∃ res, apply_collapse_plan t p cq = Ok res ∧
                      length (nodes (collapsed_toq res))
                      = length (cut_edges p) + 1.
Proof.
  intros Hvalid. pose proof Hvalid as [Hwf Hval].
  eexists. split; [by apply enumerate_collapse_plans_eq|].
  intros p [Hsorted Hcuts]%elem_of_enumerated; [|done].
  assert (length (component_roots t p) = length (cut_edges p) + 1) as Hlen.
  { apply length_component_roots; [by apply StronglySorted_lt_NoDup|].
    intros Hroot. by destruct (Hcuts _ Hroot). }
  split_and!; [done| |].
  - intros r Hr.
    assert (r ∈ keys (nodes t)) as Hrk.
    { apply elem_of_component_roots in Hr as [->|Hr];
        [by apply valid_root_key | by apply Hcuts]. }
    destruct (extract_open_toq_result t p r Hvalid Hrk)
      as (vs & seen & front & -> & _). by eexists.
  - intros cq Hcq.
    destruct (apply_collapse_plan_result t p cq Hvalid Hcuts Hcq)
      as (vs & -> & Hkeys & _).
    eexists. split; [done|]. simpl.
    rewrite <- Hlen, <- Hkeys. unfold keys. by rewrite length_fmap.
Qed.

(** ** [answer_distribution], [mode_answer] and [agreement_rate] *)

Lemma Counter_snoc ks k : Counter (ks ++ [k]) = counter_add (Counter ks) k.
Proof. unfold Counter. by rewrite foldl_snoc. Qed.

(** The keys of a [Counter] are the distinct items in the order in which
    they first occur. *)
Lemma Counter_keys ks : (Counter ks).*1 = reverse (remove_dups (reverse ks)).
Proof.
  induction ks as [|k ks IH] using rev_ind; [done|].
  rewrite Counter_snoc, counter_keys_add, reverse_snoc. simpl.
  destruct (Counter_spec ks) as (_ & Hkeys & _).
  destruct (decide_rel elem_of k (reverse ks)) as [Hin|Hout].
  - rewrite decide_True; [done|]. by apply Hkeys, elem_of_reverse.
  - rewrite decide_False, reverse_cons, IH; [done|].
    intros Hin%Hkeys. by apply Hout, elem_of_reverse.
Qed.

Lemma elem_of_keyed {A B} (f : A → B) (d : list (A * B)) a c :
  d.*2 = f <$> d.*1 → (a, c) ∈ d ↔ a ∈ d.*1 ∧ c = f a.
Proof.
  induction d as [|[a' c'] d IH]; csimpl.
  - intros _. rewrite !elem_of_nil. tauto.
  - intros [= -> Hd]. rewrite !elem_of_cons, (IH Hd). naive_solver.
Qed.

(** X12.  [answer_distribution] lists the distinct answer keys of the runs
    in the order in which they first occur, each once and with the number
    of runs that gave it, so that the counts add up to the number of
    runs. *)
Theorem answer_distribution_counts (report : ConsistencyReport)
    (use_normalized : bool) :
  let ks := answer_key_of use_normalized <$> runs report in
  let dist := answer_distribution report use_normalized in
  dist.*1 = reverse (remove_dups (reverse ks)) ∧
  NoDup dist.*1 ∧
  (∀ a c, (a, c) ∈ dist ↔ a ∈ ks ∧ c = occurrences a ks) ∧
  sum_list dist.*2 = length (runs report).
Proof.
  intros ks dist. unfold dist. rewrite answer_distribution_eq. fold ks.
  destruct (Counter_spec ks) as (Hnd & Hkeys & Hvals & Hsum).
  split_and!.
  - apply Counter_keys.
  - done.
  - intros a c. rewrite (elem_of_keyed _ _ _ _ Hvals), Hkeys. done.
  - rewrite Hsum. apply length_fmap.
Qed.

(** [max(xs, key=f)] returns an element of largest key, and every element
    before it has a strictly smaller key. *)
Lemma py_max_key_from_spec {A} (f : A → nat) (best : A) (xs : list A) :
  ∃ i, (best :: xs) !! i = Some (py_max_key_from f best xs) ∧
       (∀ y, y ∈ best :: xs → f y ≤ f (py_max_key_from f best xs)) ∧
       ∀ j y, j < i → (best :: xs) !! j = Some y →
              f y < f (py_max_key_from f best xs).
Proof.
  revert best. induction xs as [|x xs IH]; intros best; simpl.
  - exists 0. split_and!; [done| |intros; lia].
    intros y ->%list_elem_of_singleton. done.
  - destruct (decide (f best < f x)) as [Hlt|Hge].
    + destruct (IH x) as (i & Hi & Hmax & Hfirst).
      assert (f x ≤ f (py_max_key_from f x xs)) by (apply Hmax; left).
      exists (S i). split_and!; [done| |].
      * intros y [->|Hy]%elem_of_cons; [lia | by apply Hmax].
      * intros [|j] y Hj; simpl; [intros [= <-]; lia|].
        apply Hfirst. lia.
    + destruct (IH best) as (i & Hi & Hmax & Hfirst).
      assert (f best ≤ f (py_max_key_from f best xs)) by (apply Hmax; left).
      destruct i as [|i].
      * exists 0. injection Hi as Hi. split_and!; [by rewrite <- Hi| |intros; lia].
        intros y [->|[->|Hy]%elem_of_cons]%elem_of_cons;
          [done | lia | apply Hmax; by right].
      * exists (S (S i)). split_and!; [done| |].
        -- intros y [->|[->|Hy]%elem_of_cons]%elem_of_cons;
             [done| |apply Hmax; by right].
           assert (f best < f (py_max_key_from f best xs))
             by (apply (Hfirst 0); [lia | done]). lia.
        -- intros [|[|j]] y Hj; simpl.
           ++ intros [= <-]. apply (Hfirst 0); [lia | done].
           ++ intros [= <-].
              assert (f best < f (py_max_key_from f best xs))
                by (apply (Hfirst 0); [lia | done]). lia.
           ++ apply (Hfirst (S j)). lia.
Qed.

Lemma mode_answer_spec (report : ConsistencyReport) (use_normalized : bool) :
  let ks := answer_key_of use_normalized <$> runs report in
  let dist := answer_distribution report use_normalized in
  (runs report = [] → mode_answer report use_normalized = Ok None) ∧
  (runs report ≠ [] →
   ∃ a i,
     mode_answer report use_normalized = Ok (Some (a, occurrences a ks)) ∧
     a ∈ ks ∧
     (∀ b, occurrences b ks ≤ occurrences a ks) ∧
     dist.*1 !! i = Some a ∧
     ∀ j b, j < i → dist.*1 !! j = Some b →
            occurrences b ks < occurrences a ks).
Proof.
  intros ks dist.
  assert (dist = Counter ks) as Hdist by apply answer_distribution_eq.
  destruct (Counter_spec ks) as (Hnd & Hkeys & Hvals & Hsum).
  destruct (counter_loop [] ks) as (_ & _ & Hget & _); [constructor|].
  fold (Counter ks) in Hget. simpl in Hget.
  split.
  - intros Hruns. unfold mode_answer. fold dist. rewrite Hdist.
    unfold ks. by rewrite Hruns.
  - intros Hruns. unfold mode_answer. fold dist. rewrite Hdist.
    destruct (Counter ks) as [|[a0 c0] d] eqn:Hd.
    { exfalso. simpl in Hsum. unfold ks in Hsum. rewrite length_fmap in Hsum.
      by destruct (runs report). }
    cbv beta iota. change (((a0, c0) :: d).*1) with (a0 :: d.*1) in *.
    unfold py_max_key. cbn [bind].
    destruct (py_max_key_from_spec
                (counter_get ((a0, c0) :: d)) a0 d.*1) as (i & Hi & Hmax & Hfirst).
    set (a := py_max_key_from (counter_get ((a0, c0) :: d)) a0 d.*1) in *.
    assert (∀ b, counter_get ((a0, c0) :: d) b = occurrences b ks) as Hocc.
    { intros b. by rewrite Hget. }
    assert (a ∈ ks) as Ha.
    { apply Hkeys. by eapply list_elem_of_lookup_2. }
    exists a, i. rewrite Hocc. split_and!; [done..| |done|].
    + intros b. destruct (decide (b ∈ ks)) as [Hb|Hb].
      * rewrite <- !Hocc. apply Hmax. by apply Hkeys in Hb.
      * rewrite occurrences_absent by done. lia.
    + intros j b Hj Hb. rewrite <- !Hocc. by eapply Hfirst.
Qed.

(** X13.  [mode_answer] returns [None] on a report without runs.  Otherwise
    it returns an answer together with the number of runs that gave it; no
    answer was given more often, and of the answers given equally often it
    is the one that comes first in [answer_distribution]. *)
Theorem mode_answer_first_modal (report : ConsistencyReport)
    (use_normalized : bool) :
  let ks := answer_key_of use_normalized <$> runs report in
  let dist := answer_distribution report use_normalized in
  (runs report = [] → mode_answer report use_normalized = Ok None) ∧
  (runs report ≠ [] →
   ∃ a i,
     mode_answer report use_normalized = Ok (Some (a, occurrences a ks)) ∧
     a ∈ ks ∧
     (∀ b, occurrences b ks ≤ occurrences a ks) ∧
     dist.*1 !! i = Some a ∧
     ∀ j b, j < i → dist.*1 !! j = Some b →
            occurrences b ks < occurrences a ks).
Proof. apply mode_answer_spec. Qed.

(** X14.  [agreement_rate] and [mode_answer] agree: on a report with runs,
    the agreement rate is the float [c / n] of the count [c] that
    [mode_answer] reports and the number [n] of runs. *)
Theorem agreement_rate_of_mode (report : ConsistencyReport)
    (use_normalized : bool) :
  runs report ≠ [] →
  ∃ a c,
    mode_answer report use_normalized = Ok (Some (a, c)) ∧
    agreement_rate report use_normalized
    = py_truediv (Z.of_nat c) (Z.of_nat (length (runs report))).
Proof.
  intros Hruns.
  destruct (mode_answer_spec report use_normalized) as [_ Hmode].
  destruct (Hmode Hruns) as (a & i & Ha & _ & Hmax & _).
  destruct (agreement_rate_eq report use_normalized Hruns)
    as (a' & _ & Hmax' & _ & Hrate).
  eexists _, _. split; [done|]. rewrite Hrate. do 2 f_equal.
  apply Nat.le_antisymm; [apply Hmax | apply Hmax'].
Qed.

Lemma occurrences_all a ks :
  occurrences a ks = length ks ↔ ∀ k, k ∈ ks → k = a.
Proof.
  unfold occurrences. induction ks as [|k ks IH].
  - split; [by intros _ k ?%elem_of_nil | done].
  - rewrite filter_cons. pose proof (length_filter (λ k, k = a) ks).
    case_decide as Hk; simpl.
    + split.
      * intros [= Hlen]. intros k' [->|Hk']%elem_of_cons; [done|].
        by apply IH.
      * intros Hall. f_equal. apply IH. intros k' Hk'. apply Hall. by right.
    + split; [lia|]. intros Hall. exfalso. apply Hk, Hall. left.
Qed.

(** X15.  The agreement rate of a report with runs, fewer than [2 ^ 53] of
    them, is [1.0] exactly when all its runs gave the same answer.  (From
    [2 ^ 54] runs on, a single dissenting run is rounded away.) *)
Theorem agreement_rate_unanimous (report : ConsistencyReport)
    (use_normalized : bool) :
  runs report ≠ [] →
  (Z.of_nat (length (runs report)) < 2 ^ 53)%Z →
  ∃ q, agreement_rate report use_normalized = Ok q ∧
       (q = 1%Q ↔
        ∃ a, ∀ r, r ∈ runs report → answer_key_of use_normalized r = a).
Proof.
  intros Hruns Hsize.
  destruct (agreement_rate_eq report use_normalized Hruns)
    as (a & Ha & Hmax & Hcount & Hrate).
  set (ks := answer_key_of use_normalized <$> runs report) in *.
  assert (length ks = length (runs report)) as Hlen by apply length_fmap.
  destruct (py_truediv_fraction _ _ Hcount)
    as (q & Hq & _ & _ & _ & _ & Hone & Hless).
  exists q. split; [by rewrite Hrate|]. split.
  - intros ->.
    assert (occurrences a ks = length ks) as Hall.
    { destruct (decide (occurrences a ks = length (runs report))) as [|Hne];
        [lia|]. exfalso.
      assert (1 < 1)%Q as Hlt by (apply Hless; [lia | done]). done. }
    exists a. intros r Hr.
    apply (proj1 (occurrences_all a ks) Hall).
    apply list_elem_of_fmap. eauto.
  - intros (b & Hb). apply Hone.
    assert (occurrences b ks = length ks) as Hlenb.
    { apply occurrences_all. intros k (r & -> & Hr)%list_elem_of_fmap. by apply Hb. }
    specialize (Hmax b). lia.
Qed.

(** ** [inconsistency_witnesses] *)

Section str_dict_facts.
Context {V : Type}.
Implicit Types d : list (string * V).

Lemma str_get_set d k v k' :
  str_get (str_set d k v) k' = if decide (k' = k) then Some v else str_get d k'.
Proof.
  induction d as [|[k0 v0] d IH]; simpl.
  - by case_decide.
  - destruct (decide (k = k0)) as [->|Hne]; simpl.
    + by repeat case_decide.
    + rewrite IH. repeat case_decide; simplify_eq; done.
Qed.

Lemma str_keys_set d k v :
  (str_set d k v).*1 = if decide (k ∈ d.*1) then d.*1 else d.*1 ++ [k].
Proof.
  induction d as [|[k0 v0] d IH]; csimpl; [done|].
  destruct (decide (k = k0)) as [->|Hne]; csimpl.
  - clear IH. case_decide as Hin; [done|]. exfalso. apply Hin. left.
  - rewrite IH. repeat case_decide; try done; exfalso; set_solver.
Qed.

Lemma str_get_None d k : str_get d k = None ↔ k ∉ d.*1.
Proof.
  induction d as [|[k' v'] d IH]; csimpl.
  - split; [intros _; apply not_elem_of_nil | done].
  - rewrite not_elem_of_cons, <- IH. case_decide; [|tauto].
    split; [done | by intros [? _]].
Qed.

End str_dict_facts.

(** One iteration of the loop of [inconsistency_witnesses]. *)
Lemma witness_step_spec (use_normalized : bool) (max_per_answer : Z)
    (out : list (string * list CollapsePlan)) (r : RunResult) :
  let k := answer_key_of use_normalized r in
  let plans := default [] (str_get out k) in
  (witness_step use_normalized max_per_answer out r).*1
  = (if decide (k ∈ out.*1) then out.*1 else out.*1 ++ [k]) ∧
  ∀ a, str_get (witness_step use_normalized max_per_answer out r) a
       = if decide (a = k)
         then Some (if decide (Z.of_nat (length plans) < max_per_answer)%Z
                    then plans ++ [run_plan r] else plans)
         else str_get out a.
Proof.
  intros k plans. unfold witness_step. fold (answer_key_of use_normalized r).
  fold k. unfold plans. clear plans.
  destruct (str_get out k) as [l|] eqn:Hk; simpl.
  - assert (k ∈ out.*1) as Hin.
    { destruct (decide (k ∈ out.*1)) as [|Hn]; [done|].
      apply str_get_None in Hn. congruence. }
    rewrite Hk. rewrite (decide_True (P:=k ∈ out.*1)) by done.
    case_decide.
    + split; [by rewrite str_keys_set, decide_True|].
      intros a. by rewrite str_get_set.
    + split; [done|]. intros a. case_decide; [by subst|done].
  - assert (k ∉ out.*1) as Hout by (by apply str_get_None).
    rewrite (decide_False (P:=k ∈ out.*1)) by done.
    rewrite str_get_set, decide_True by done. simpl.
    assert (k ∈ (str_set out k []).*1) as Hin'.
    { rewrite str_keys_set, decide_False by done.
      apply elem_of_app. right. left. }
    case_decide.
    + split.
      * by rewrite str_keys_set, decide_True, str_keys_set, decide_False.
      * intros a. rewrite !str_get_set. by case_decide.
    + split; [by rewrite str_keys_set, decide_False|].
      intros a. by rewrite str_get_set.
Qed.

(** Appending to a list that is cut off after [max_per_answer] entries. *)
Lemma take_snoc_limit {A} (m : Z) (l : list A) (x : A) :
  (if decide (Z.of_nat (length (take (Z.to_nat m) l)) < m)%Z
   then take (Z.to_nat m) l ++ [x] else take (Z.to_nat m) l)
  = take (Z.to_nat m) (l ++ [x]).
Proof.
  rewrite length_take. case_decide as Hlt.
  - assert (length l < Z.to_nat m) by lia.
    rewrite !take_ge; [done|..]; rewrite ?length_app; simpl; lia.
  - destruct (decide (m ≤ 0)%Z) as [Hm|Hm].
    + replace (Z.to_nat m) with 0 by lia. done.
    + rewrite take_app_le; [done | lia].
Qed.

Lemma inconsistency_witnesses_spec (use_normalized : bool) (max_per_answer : Z)
    (rs : list RunResult) :
  let ks := answer_key_of use_normalized <$> rs in
  let out := foldl (witness_step use_normalized max_per_answer) [] rs in
  out.*1 = (Counter ks).*1 ∧
  ∀ a, str_get out a
       = if decide (a ∈ ks)
         then Some (take (Z.to_nat max_per_answer)
                      (plans_of_answer use_normalized a rs))
         else None.
Proof.
  induction rs as [|r rs IH] using rev_ind.
  - split; [done|]. intros a. rewrite fmap_nil.
    rewrite decide_False; [done | apply not_elem_of_nil].
  - cbv zeta in *. destruct IH as [IHk IHv].
    rewrite foldl_snoc, fmap_app. csimpl.
    destruct (witness_step_spec use_normalized max_per_answer
                (foldl (witness_step use_normalized max_per_answer) [] rs) r)
      as [Hk Hv].
    split.
    + rewrite Hk, Counter_snoc, counter_keys_add, IHk. done.
    + intros a. rewrite Hv. unfold plans_of_answer.
      rewrite filter_app, fmap_app, filter_cons, filter_nil.
      destruct (decide (a = answer_key_of use_normalized r)) as [->|Hne].
      * set (k := answer_key_of use_normalized r) in *.
        rewrite (decide_True (P := k = k)) by done.
        rewrite (decide_True (P := k ∈ _ ++ _))
          by (apply elem_of_app; right; left).
        f_equal. csimpl. rewrite <- take_snoc_limit.
        set (pl := run_plan <$> filter _ rs).
        assert (default [] (str_get (foldl (witness_step use_normalized
                                              max_per_answer) [] rs) k)
                = take (Z.to_nat max_per_answer) pl) as ->; [|done].
        rewrite IHv. change (plans_of_answer use_normalized k rs) with pl.
        destruct (decide (k ∈ answer_key_of use_normalized <$> rs)) as [Hin|Hin];
          [done|]. simpl.
        assert (pl = []) as ->; [|by rewrite take_nil].
        unfold pl. destruct (filter _ rs) as [|r' l] eqn:E; [done|].
        exfalso. apply Hin.
        assert (r' ∈ filter (λ r0, answer_key_of use_normalized r0 = k) rs)
          as [Heq Hr']%list_elem_of_filter by (rewrite E; left).
        apply list_elem_of_fmap. eauto.
      * rewrite (decide_False (P := _ = a)) by done.
        csimpl. rewrite app_nil_r, IHv.
        fold (plans_of_answer use_normalized a rs).
        destruct (decide (a ∈ answer_key_of use_normalized <$> rs)) as [Hin|Hin].
        -- rewrite decide_True; [done|]. apply elem_of_app. by left.
        -- rewrite decide_False; [done|].
           intros [?|?%list_elem_of_singleton]%elem_of_app; done.
Qed.

(** X16.  [inconsistency_witnesses] has one entry per distinct answer, in the
    order of [answer_distribution]; the entry of an answer holds the plans
    of the first [max_per_answer] runs that gave it, in the order of the
    runs (none when [max_per_answer] is not positive), and an answer no run
    gave has no entry. *)
Theorem inconsistency_witnesses_first_plans (report : ConsistencyReport)
    (use_normalized : bool) (max_per_answer : Z) :
  let ks := answer_key_of use_normalized <$> runs report in
  let out := inconsistency_witnesses report use_normalized max_per_answer in
  out.*1 = (answer_distribution report use_normalized).*1 ∧
  ∀ a, str_get out a
       = if decide (a ∈ ks)
         then Some (take (Z.to_nat max_per_answer)
                      (plans_of_answer use_normalized a (runs report)))
         else None.
Proof.
  intros ks out. rewrite answer_distribution_eq.
  apply inconsistency_witnesses_spec.
Qed.

(** ** More on components and on the agreement rate *)

(** X17.  Every cut edge is an input of exactly one component, the one of
    its parent: for a valid tree and a plan whose cut edges are nodes other
    than the root, a cut edge [k] has a parent [p], [_component_root] of [p]
    returns a component root [c], [k] is among the inputs of the open tree
    extracted at [c], and of no open tree extracted at another component
    root. *)
Theorem cut_edge_is_input_once (t : ToQ) (plan : CollapsePlan) (k : Z) :
  valid_toq t →
  (∀ c, c ∈ cut_edges plan → c ∈ keys (nodes t) ∧ c ≠ root_id t) →
  k ∈ cut_edges plan →
  ∃ p c,
    parent_of t k = Some p ∧
    _component_root t p (list_to_set (cut_edges plan)) = Ok c ∧
    c ∈ component_roots t plan ∧
    (∃ o, extract_open_toq t plan c = Ok o ∧ k ∈ inputs o) ∧
    ∀ c' o', c' ∈ component_roots t plan →
             extract_open_toq t plan c' = Ok o' → k ∈ inputs o' → c' = c.
Proof.
  intros Hvalid Hcuts Hk. pose proof Hvalid as [Hwf Hval].
  destruct (Hcuts k Hk) as [Hkk Hne].
  destruct (valid_parent t Hval k Hkk Hne) as (p & Hp & Hpk).
  destruct (component_root_result t (list_to_set (cut_edges plan)) p Hval Hpk)
    as (c & Hc & Hs).
  assert (∀ r, r ∈ component_roots t plan → r ∈ keys (nodes t)) as Hroots.
  { intros r [->|Hr]%elem_of_component_roots;
      [by apply valid_root_key | by apply Hcuts]. }
  assert (c ∈ component_roots t plan) as Hcr.
  { apply elem_of_component_roots.
    destruct (stops_at_stop _ _ _ _ Hs) as (n & Hn & [Hnone|Hin]).
    - left. apply (valid_no_parent t Hval).
      + apply dict_get_is_Some. eauto.
      + unfold parent_of. by rewrite Hn.
    - right. by apply elem_of_list_to_set in Hin. }
  exists p, c. split_and!; [done..| |].
  - destruct (extract_open_toq_result t plan c Hvalid (Hroots c Hcr))
      as (vs & seen & front & -> & _ & _ & Hseen & Hfront & _).
    eexists. split; [done|]. simpl.
    rewrite elem_of_sorted, elem_of_elements, Hfront. split; [done|].
    exists p. split; [|done]. by apply Hseen, stops_at_reach.
  - intros c' o' Hc' Ho'.
    destruct (extract_open_toq_result t plan c' Hvalid (Hroots c' Hc'))
      as (vs & seen & front & Heq & _ & _ & Hseen & Hfront & _).
    rewrite Heq in Ho'. injection Ho' as <-. simpl. intros Hin.
    apply elem_of_sorted, elem_of_elements, Hfront in Hin
      as (_ & u & Hu & Hpu).
    apply Hseen in Hu.
    assert (u = p) as -> by congruence.
    eapply reach_unique; [done..|]. by apply stops_at_reach.
Qed.

(** X18.  [component_roots] looks at the cut edges as a set: two plans that
    list the same cut edges, in whatever order and however often, have the
    same component roots. *)
Theorem component_roots_of_set (t : ToQ) (p1 p2 : CollapsePlan) :
  (∀ x, x ∈ cut_edges p1 ↔ x ∈ cut_edges p2) →
  component_roots t p1 = component_roots t p2.
Proof.
  intros Hsame. unfold component_roots. do 3 f_equal.
  apply set_eq. intros x. by rewrite !elem_of_list_to_set.
Qed.

Lemma sum_list_le_max (l : list nat) (m : nat) :
  (∀ x, x ∈ l → x ≤ m) → sum_list l ≤ length l * m.
Proof.
  induction l as [|x l IH]; intros Hall; simpl; [done|].
  assert (x ≤ m) by (apply Hall; left).
  assert (sum_list l ≤ length l * m) by (apply IH; intros y Hy; apply Hall; by right).
  lia.
Qed.

(** X19.  With [d] distinct answers among the runs the modal answer is
    given by at least its share of the runs, and the agreement rate is at
    least the float [1 / d]: rounding to the nearest double keeps the
    order. *)
Theorem agreement_rate_at_least_share (report : ConsistencyReport)
    (use_normalized : bool) :
  let d := length (answer_distribution report use_normalized) in
  runs report ≠ [] →
  ∃ q s, agreement_rate report use_normalized = Ok q ∧
         py_truediv 1 (Z.of_nat d) = Ok s ∧
         (s <= q)%Q.
Proof.
  intros d Hruns.
  destruct (agreement_rate_eq report use_normalized Hruns)
    as (a & Ha & Hmax & Hcount & Hrate).
  set (ks := answer_key_of use_normalized <$> runs report) in *.
  destruct (Counter_spec ks) as (Hnd & Hkeys & Hvals & Hsum).
  assert (length ks = length (runs report)) as Hlen by apply length_fmap.
  assert (length (runs report) ≤ d * occurrences a ks) as Hshare.
  { rewrite <- Hlen, <- Hsum. unfold d. rewrite answer_distribution_eq.
    fold ks. rewrite <- (length_fmap snd (Counter ks)).
    apply sum_list_le_max. rewrite Hvals.
    intros x (b & -> & _)%list_elem_of_fmap. apply Hmax. }
  assert (0 < d) as Hd by nia.
  destruct (truediv_pos_mono 1 (Z.of_nat d) (Z.of_nat (occurrences a ks))
              (Z.of_nat (length (runs report))))
    as (s & q & Hs & Hq & Hle); [lia | lia | nia |].
  exists q, s. rewrite Hrate, !py_truediv_pos by lia. done.
Qed.

(** ** The further statements at the sample trees *)

Lemma component_root_is_component_root_witness :
  valid_toq chain ∧ 2%Z ∈ keys (nodes chain) ∧
  ∃ r, _component_root chain 2%Z (list_to_set [1%Z]) = Ok r ∧
       r ∈ component_roots chain (mkCollapsePlan [1%Z]).
Proof.
  split_and!; [by_evaluation..|].
  destruct (component_root_is_component_root chain (mkCollapsePlan [1%Z]) 2%Z)
    as (r & Hr & Hroot & _); [by_evaluation..|].
  by exists r.
Defined.

Lemma extract_open_toq_nodes_by_walk_witness :
  valid_toq chain ∧
  1%Z ∈ component_roots chain (mkCollapsePlan [1%Z]) ∧
  1%Z ∈ keys (nodes chain) ∧
  ∃ o, extract_open_toq chain (mkCollapsePlan [1%Z]) 1%Z = Ok o ∧
       ∀ x, x ∈ keys (nodes (open_toq o)) ↔
            _component_root chain x (list_to_set [1%Z]) = Ok 1%Z.
Proof.
  split_and!; [by_evaluation..|].
  apply (extract_open_toq_nodes_by_walk chain (mkCollapsePlan [1%Z]) 1%Z);
    by_evaluation.
Defined.

Lemma component_root_diverges_without_root_witness :
  0%Z ∈ keys (nodes cycle) ∧ _component_root cycle 0%Z ∅ = Err Diverges.
Proof.
  assert (0%Z ∈ keys (nodes cycle)) as Hk by by_evaluation.
  split; [done|].
  apply (component_root_diverges_without_root cycle 0%Z); [|done].
  intros x Hx. unfold cycle, keys in Hx. simpl in Hx.
  apply elem_of_cons in Hx as [->|Hx];
    [|apply list_elem_of_singleton in Hx as ->];
    eexists; (split; [vm_compute; reflexivity | by_evaluation]).
Defined.

Lemma apply_collapse_plan_rewires_witness :
  valid_toq chain ∧
  ∃ res, apply_collapse_plan chain (mkCollapsePlan [2%Z]) three_questions = Ok res ∧
         collapsed_plan res = mkCollapsePlan [2%Z].
Proof.
  split; [by_evaluation|].
  destruct (apply_collapse_plan_rewires chain (mkCollapsePlan [2%Z]) three_questions)
    as (res & Hres & Hplan & _); [by_evaluation..|].
  by exists res.
Defined.

Lemma apply_collapse_plan_succeeds_iff_witness :
  valid_toq chain ∧
  ∀ e, apply_collapse_plan chain (mkCollapsePlan [2%Z]) two_questions = Err e →
       e = InvalidCut ∨ e = MissingCollapsedQuestion.
Proof.
  split; [by_evaluation|].
  apply (apply_collapse_plan_succeeds_iff chain (mkCollapsePlan [2%Z]) two_questions).
  by_evaluation.
Defined.

Lemma quotient_edges_are_inputs_witness :
  valid_toq chain ∧
  ∃ res, apply_collapse_plan chain (mkCollapsePlan [1; 2]%Z) three_questions
         = Ok res.
Proof.
  split; [by_evaluation|].
  destruct (quotient_edges_are_inputs chain (mkCollapsePlan [1; 2]%Z) three_questions)
    as (res & Hres & _); [by_evaluation..|].
  by exists res.
Defined.

Lemma apply_collapse_plan_cut_everything_witness :
  valid_toq chain ∧
  ∃ res, apply_collapse_plan chain (cut_everything chain) three_questions = Ok res ∧
         removed_nodes res = ∅.
Proof.
  split; [by_evaluation|].
  destruct (apply_collapse_plan_cut_everything chain three_questions)
    as (res & Hres & _ & Hremoved & _); [by_evaluation..|].
  by exists res.
Defined.

Lemma extract_open_toq_needs_node_witness :
  valid_toq chain ∧ (7%Z ∉ keys (nodes chain)) ∧
  extract_open_toq chain (mkCollapsePlan [1%Z]) 7%Z = Err KeyError.
Proof.
  assert (7%Z ∉ keys (nodes chain)) as Hout by by_evaluation.
  split_and!; [by_evaluation | done |].
  by apply (extract_open_toq_needs_node chain (mkCollapsePlan [1%Z]) 7%Z);
    [by_evaluation|].
Defined.

Lemma extract_open_toq_whole_tree_witness :
  valid_toq chain_unordered ∧
  ∃ o, extract_open_toq chain_unordered (mkCollapsePlan []) 0%Z = Ok o ∧
       inputs o = [].
Proof.
  split; [by_evaluation|].
  destruct (extract_open_toq_whole_tree chain_unordered)
    as (o & Ho & _ & Hin & _); [by_evaluation|].
  by exists o.
Defined.

Lemma enumerate_collapse_plans_exact_witness :
  valid_toq chain_unordered ∧
  ∃ plans, enumerate_collapse_plans chain_unordered true = Ok plans ∧
           mkCollapsePlan [1; 2]%Z ∈ plans.
Proof.
  split; [by_evaluation|].
  destruct (enumerate_collapse_plans_exact chain_unordered)
    as (plans & Hplans & Hmem); [by_evaluation|].
  exists plans. split; [done|]. apply Hmem. simpl. split.
  - repeat constructor.
  - by_evaluation.
Defined.

Lemma enumerated_plans_apply_witness :
  valid_toq chain ∧
  ∃ plans, enumerate_collapse_plans chain false = Ok plans ∧
           ∀ p, p ∈ plans →
                length (component_roots chain p) = length (cut_edges p) + 1.
Proof.
  split; [by_evaluation|].
  destruct (enumerated_plans_apply chain false) as (plans & Hplans & Hall);
    [by_evaluation|].
  exists plans. split; [done|]. intros p Hp. by apply Hall.
Defined.

Lemma mode_answer_first_modal_witness :
  runs three_runs ≠ [] ∧
  ∃ a, mode_answer three_runs true
       = Ok (Some (a, occurrences a (answer_key_of true <$> runs three_runs))).
Proof.
  assert (runs three_runs ≠ []) as Hruns by done.
  split; [done|].
  destruct (mode_answer_first_modal three_runs true) as [_ Hmode].
  destruct (Hmode Hruns) as (a & i & Ha & _). by exists a.
Defined.

Lemma agreement_rate_of_mode_witness :
  runs three_runs ≠ [] ∧
  ∃ a c, mode_answer three_runs true = Ok (Some (a, c)) ∧
         agreement_rate three_runs true
         = py_truediv (Z.of_nat c) (Z.of_nat (length (runs three_runs))).
Proof.
  assert (runs three_runs ≠ []) as Hruns by done.
  split; [done|]. by apply (agreement_rate_of_mode three_runs true).
Defined.

Lemma agreement_rate_unanimous_witness :
  runs three_runs ≠ [] ∧
  (Z.of_nat (length (runs three_runs)) < 2 ^ 53)%Z ∧
  ∃ q, agreement_rate three_runs false = Ok q ∧
       (q = 1%Q ↔
        ∃ a, ∀ r, r ∈ runs three_runs → answer_key_of false r = a).
Proof.
  assert (runs three_runs ≠ []) as Hruns by done.
  assert (Z.of_nat (length (runs three_runs)) < 2 ^ 53)%Z as Hsize
    by (vm_compute; reflexivity).
  split_and!; [done..|]. by apply (agreement_rate_unanimous three_runs false).
Defined.

Lemma cut_edge_is_input_once_witness :
  valid_toq chain ∧ 2%Z ∈ [1; 2]%Z ∧
  ∃ p c, parent_of chain 2%Z = Some p ∧
         _component_root chain p (list_to_set [1; 2]%Z) = Ok c ∧
         c ∈ component_roots chain (mkCollapsePlan [1; 2]%Z) ∧
         ∃ o, extract_open_toq chain (mkCollapsePlan [1; 2]%Z) c = Ok o ∧
              2%Z ∈ inputs o.
Proof.
  split_and!; [by_evaluation..|].
  destruct (cut_edge_is_input_once chain (mkCollapsePlan [1; 2]%Z) 2%Z)
    as (p & c & Hp & Hroot & Hc & Hin & _); [by_evaluation..|].
  by exists p, c.
Defined.

Lemma component_roots_of_set_witness :
  (∀ x, x ∈ [1; 2]%Z ↔ x ∈ [2; 1; 1]%Z) ∧
  component_roots chain (mkCollapsePlan [1; 2]%Z)
  = component_roots chain (mkCollapsePlan [2; 1; 1]%Z).
Proof.
  assert (∀ x, x ∈ [1; 2]%Z ↔ x ∈ [2; 1; 1]%Z) as Hsame.
  { intros x. rewrite !elem_of_cons, !elem_of_nil. tauto. }
  split; [done|].
  by apply (component_roots_of_set chain (mkCollapsePlan [1; 2]%Z)
              (mkCollapsePlan [2; 1; 1]%Z)).
Defined.

Lemma agreement_rate_at_least_share_witness :
  runs three_runs ≠ [] ∧
  ∃ q s, agreement_rate three_runs true = Ok q ∧
         py_truediv 1 (Z.of_nat (length (answer_distribution three_runs true)))
         = Ok s ∧
         (s <= q)%Q.
Proof.
  assert (runs three_runs ≠ []) as Hruns by done.
  split; [done|]. by apply (agreement_rate_at_least_share three_runs true).
Defined.
